(** * A sharded string-keyed map (package [cmap]): model and properties

    The development follows [concurrent_map.go] one function at a time.
    A table is a fixed slice of shards; every shard owns a Go map from
    string keys to [interface{}] values together with a reader/writer
    mutex.  Each single-key operation selects a shard with the bundled
    32-bit hash, takes the shard's lock, touches the shard's map and
    releases the lock.

    Modelling decisions:
    - one goroutine: an operation is a state transformer over the table
      and the environment captured by the caller's callback; a lock that
      cannot be taken is the outcome [Blocked], a run-time panic is the
      outcome [Panicked], and in both cases the state reached so far is
      kept (nothing is rolled back, a held lock stays held);
    - [uint32] values are integers in [0, 2^32) with the wrap-around
      written out; [uint] is taken to be 64 bits wide;
    - Go strings are byte strings: [string] with one [ascii] per byte;
    - a slice value is modelled by its sequence of elements, so [append]
      yields the extended sequence; the module [Backed] repeats the
      operations with slices as windows on shared backing arrays, for the
      property that depends on them;
    - the slots of a table made by [New] point to pairwise distinct
      shards, hence the slice of pointers is a list of shard states. *)

From Stdlib Require Import ZArith String Ascii List Lia.
From stdpp Require Import base option list gmap strings.

Local Open Scope Z_scope.

(** ** Hasher: [fnv32] *)

Module Hasher.

Definition wrap32 (z : Z) : Z := z mod 2 ^ 32.

Definition offset32 : Z := 2166136261.
Definition prime32 : Z := 16777619.

(** [uint32(key[i])] for a byte of the key. *)
Definition byte_val (c : ascii) : Z := Z.of_N (N_of_ascii c).

(** The [for i := 0; i < len(key); i++] loop of [fnv32].  [n] bounds the
    number of iterations left; the test [i < len(key)] is the success of
    the indexing [key[i]]. *)
Fixpoint fnv32_loop (key : string) (n i : nat) (hash : Z) : Z :=
  match n with
  | O => hash
  | S n' =>
      match String.get i key with
      | Some c =>
          let hash1 := wrap32 (hash * prime32) in     (* hash *= prime32 *)
          let hash2 := Z.lxor hash1 (byte_val c) in   (* hash ^= uint32(key[i]) *)
          fnv32_loop key n' (S i) hash2
      | None => hash
      end
  end.

Definition fnv32 (key : string) : Z :=
  fnv32_loop key (String.length key) 0 offset32.

(** The byte sequence of a key, in order. *)
Definition bytes_of (key : string) : list Z :=
  List.map byte_val (list_ascii_of_string key).

(** The hash as the specification words it: start from 2166136261 and,
    for each byte in order, multiply by 16777619 modulo 2^32 and then
    XOR the byte in. *)
Definition fnv32_described (key : string) : Z :=
  List.fold_left (fun h b => Z.lxor ((h * 16777619) mod 2 ^ 32) b)
                 (bytes_of key) 2166136261.

(** The two published 32-bit Fowler-Noll-Vo variants, over a byte
    sequence: FNV-1 multiplies and then XORs, FNV-1a XORs and then
    multiplies.  Go's [hash/fnv] offers them as [New32] and [New32a]. *)
Definition fnv1_32_reference (data : list Z) : Z :=
  List.fold_left (fun h b => Z.lxor (wrap32 (h * prime32)) b) data offset32.

Definition fnv1a_32_reference (data : list Z) : Z :=
  List.fold_left (fun h b => wrap32 (Z.lxor h b * prime32)) data offset32.

End Hasher.

(** ** Values held behind [interface{}] *)

(** The dynamic values used by the package and its tests: the nil
    interface, booleans, integers, strings, the test suite's
    [Animal{name}] struct, and two slice types, [[]Animal] and
    [[]interface{}]. *)
#[warnings="-register-all"]
Inductive Value : Type :=
| VNil
| VBool (b : bool)
| VInt (n : Z)
| VString (s : string)
| VAnimal (name : string)
| VAnimals (names : list string)
| VIfaces (elems : list Value).

(** Ways in which the Go run time aborts an operation. *)
Inductive PanicKind : Type :=
| DivideByZero        (* integer divide by zero *)
| IndexOutOfRange     (* index out of range *)
| MakeSliceLen        (* makeslice: len out of range *)
| NilDereference      (* nil pointer dereference *)
| Uncomparable        (* comparing uncomparable type *)
| BadAssertion        (* interface conversion: wrong dynamic type *)
| UnlockOfUnlocked    (* sync: unlock of an unlocked RWMutex *)
| Raised (msg : string). (* a panic raised by caller code *)

Inductive Outcome (A : Type) : Type :=
| Done (a : A)
| Panicked (p : PanicKind)
| Blocked.

Arguments Done {A} a.
Arguments Panicked {A} p.
Arguments Blocked {A}.

(** [a == b] on two interface values: equal dynamic types are required
    for equality, and comparing two values of one slice type panics. *)
Definition iface_eq (a b : Value) : Outcome bool :=
  match a, b with
  | VNil, VNil => Done true
  | VBool x, VBool y => Done (Bool.eqb x y)
  | VInt x, VInt y => Done (x =? y)
  | VString x, VString y => Done (String.eqb x y)
  | VAnimal x, VAnimal y => Done (String.eqb x y)
  | VAnimals _, VAnimals _ => Panicked Uncomparable
  | VIfaces _, VIfaces _ => Panicked Uncomparable
  | _, _ => Done false
  end.

(** [val.([]interface{})] *)
Definition assert_ifaces (val : Value) : Outcome (list Value) :=
  match val with
  | VIfaces xs => Done xs
  | _ => Panicked BadAssertion
  end.

(** ** The table *)

Record RWMutex : Type := { writer : bool; readers : nat }.

Definition unlocked : RWMutex := {| writer := false; readers := 0 |}.

Record ConcurrentMapShared : Type :=
  { items : gmap string Value;
    mu : RWMutex }.

(** A slot of [ConcurrentMap] is a pointer: [None] is the nil pointer. *)
Record ConcurrentHashMap : Type :=
  { Shards : Z;
    HashMap : list (option ConcurrentMapShared) }.

Definition empty_shard : ConcurrentMapShared :=
  {| items := ∅; mu := unlocked |}.

(** The longest slice of shard pointers [make] accepts: the run time's
    allocation limit (2^48 bytes on 64-bit Linux) over the 8-byte size
    of a pointer. *)
Definition max_slots : Z := 2 ^ 45.

(** [make(ConcurrentMap, shards)]: a slice of nil pointers; a negative
    length or one above the limit panics.  An allocation within the
    limit is taken to succeed: running out of memory ends the process
    and is not modelled. *)
Definition make_slots (shards : Z) : Outcome (list (option ConcurrentMapShared)) :=
  if (shards <? 0) || (max_slots <? shards) then Panicked MakeSliceLen
  else Done (replicate (Z.to_nat shards) None).

(** The filling loop of [New], [n] iterations starting at slot [i]. *)
Fixpoint New_loop (n i : nat) (slots : list (option ConcurrentMapShared))
  : list (option ConcurrentMapShared) :=
  match n with
  | O => slots
  | S n' => New_loop n' (S i) (<[i := Some empty_shard]> slots)
  end.

Definition New (shards : Z) : Outcome ConcurrentHashMap :=
  match make_slots shards with
  | Done slots =>
      Done {| Shards := shards; HashMap := New_loop (Z.to_nat shards) 0 slots |}
  | Panicked p => Panicked p
  | Blocked => Blocked
  end.

(** [uint(x)] for a 64-bit [uint]. *)
Definition to_uint (z : Z) : Z := z mod 2 ^ 64.

(** The slot a key is routed to, when the division is defined. *)
Definition shard_index (m : ConcurrentHashMap) (key : string) : nat :=
  Z.to_nat (to_uint (Hasher.fnv32 key) mod to_uint (Shards m)).

(** [int] arithmetic: a 64-bit two's complement result. *)
Definition to_int (z : Z) : Z := (z + 2 ^ 63) mod 2 ^ 64 - 2 ^ 63.

(** ** Operations as state transformers *)

(** The callback type [UpsertCb]; [E] is the state the callback's
    closure captures, which it may read and update. *)
Definition UpsertCb (E : Type) : Type :=
  bool -> Value -> Value -> E -> Outcome Value * E.

Section Operations.

Context {E : Type}.

Definition State : Type := ConcurrentHashMap * E.

Definition M (A : Type) : Type := State -> Outcome A * State.

Definition ret {A} (a : A) : M A := fun s => (Done a, s).

Definition bind {A B} (c : M A) (k : A -> M B) : M B :=
  fun s =>
    match c s with
    | (Done a, s') => k a s'
    | (Panicked p, s') => (Panicked p, s')
    | (Blocked, s') => (Blocked, s')
    end.

Definition panic {A} (p : PanicKind) : M A := fun s => (Panicked p, s).
Definition block {A} : M A := fun s => (Blocked, s).

Notation "x <- c ;; k" := (bind c (fun x => k))
  (at level 100, c at next level, right associativity).
Notation "c ;;; k" := (bind c (fun _ => k))
  (at level 100, right associativity).

(** [GetShard]: the result is the selected slot, a pointer into the
    shard slice, represented by its index. *)
Definition GetShard (key : string) : M nat :=
  fun s =>
    let m := fst s in
    if to_uint (Shards m) =? 0 then (Panicked DivideByZero, s)
    else if (shard_index m key <? length (HashMap m))%nat
         then (Done (shard_index m key), s)
         else (Panicked IndexOutOfRange, s).

(** Reading and writing through a shard pointer. *)
Definition deref (shard : nat) : M ConcurrentMapShared :=
  fun s =>
    match HashMap (fst s) !! shard with
    | Some (Some sh) => (Done sh, s)
    | _ => (Panicked NilDereference, s)
    end.

Definition assign (shard : nat) (sh : ConcurrentMapShared) : M unit :=
  fun s =>
    (Done tt,
     ({| Shards := Shards (fst s);
         HashMap := <[shard := Some sh]> (HashMap (fst s)) |}, snd s)).

Definition Lock (shard : nat) : M unit :=
  sh <- deref shard ;;
  if writer (mu sh) || negb (readers (mu sh) =? 0)%nat then block
  else assign shard {| items := items sh;
                       mu := {| writer := true; readers := readers (mu sh) |} |}.

Definition Unlock (shard : nat) : M unit :=
  sh <- deref shard ;;
  if writer (mu sh)
  then assign shard {| items := items sh;
                       mu := {| writer := false; readers := readers (mu sh) |} |}
  else panic UnlockOfUnlocked.

Definition RLock (shard : nat) : M unit :=
  sh <- deref shard ;;
  if writer (mu sh) then block
  else assign shard {| items := items sh;
                       mu := {| writer := false; readers := S (readers (mu sh)) |} |}.

Definition RUnlock (shard : nat) : M unit :=
  sh <- deref shard ;;
  match readers (mu sh) with
  | O => panic UnlockOfUnlocked
  | S n => assign shard {| items := items sh;
                           mu := {| writer := writer (mu sh); readers := n |} |}
  end.

(** [v, ok := shard.items[key]] *)
Definition items_get (shard : nat) (key : string) : M (Value * bool) :=
  sh <- deref shard ;;
  ret (match items sh !! key with
       | Some v => (v, true)
       | None => (VNil, false)
       end).

(** [shard.items[key] = value] *)
Definition items_set (shard : nat) (key : string) (value : Value) : M unit :=
  sh <- deref shard ;;
  assign shard {| items := <[key := value]> (items sh); mu := mu sh |}.

(** [delete(shard.items, key)] *)
Definition items_delete (shard : nat) (key : string) : M unit :=
  sh <- deref shard ;;
  assign shard {| items := delete key (items sh); mu := mu sh |}.

(** [cb(ok, v, value)] *)
Definition call (cb : UpsertCb E) (ok : bool) (v value : Value) : M Value :=
  fun s => let (r, e') := cb ok v value (snd s) in (r, (fst s, e')).

(** Lifting of a pure computation that may panic. *)
Definition eval {A} (o : Outcome A) : M A := fun s => (o, s).

Definition Set_ (key : string) (value : Value) : M unit :=
  shard <- GetShard key ;;
  Lock shard ;;;
  items_set shard key value ;;;
  Unlock shard.

Definition Upsert (key : string) (value : Value) (cb : UpsertCb E) : M Value :=
  shard <- GetShard key ;;
  Lock shard ;;;
  r <- items_get shard key ;;
  let '(v, ok) := r in
  res <- call cb ok v value ;;
  items_set shard key res ;;;
  Unlock shard ;;;
  ret res.

Definition SetIfAbsent (key : string) (value : Value) : M bool :=
  shard <- GetShard key ;;
  Lock shard ;;;
  r <- items_get shard key ;;
  let '(_, ok) := r in
  (if negb ok then items_set shard key value else ret tt) ;;;
  Unlock shard ;;;
  ret (negb ok).

Definition Get (key : string) : M (Value * bool) :=
  shard <- GetShard key ;;
  RLock shard ;;;
  r <- items_get shard key ;;
  RUnlock shard ;;;
  ret r.

Definition Has (key : string) : M bool :=
  shard <- GetShard key ;;
  RLock shard ;;;
  r <- items_get shard key ;;
  RUnlock shard ;;;
  ret (snd r).

Definition Remove (key : string) : M unit :=
  shard <- GetShard key ;;
  Lock shard ;;;
  items_delete shard key ;;;
  Unlock shard.

Definition Pop (key : string) : M (Value * bool) :=
  shard <- GetShard key ;;
  Lock shard ;;;
  r <- items_get shard key ;;
  items_delete shard key ;;;
  Unlock shard ;;;
  ret r.

Definition SetIfPresent (key : string) (newValue oldValue : Value) : M bool :=
  shard <- GetShard key ;;
  Lock shard ;;;
  r <- items_get shard key ;;
  let '(val, ok) := r in
  (* ok = ok && (val == oldValue): the comparison runs only when ok *)
  ok <- (if ok then eval (iface_eq val oldValue) else ret false) ;;
  (if ok then items_set shard key newValue else ret tt) ;;;
  Unlock shard ;;;
  ret ok.

Definition AddIfPresent (key : string) (value : Value) : M bool :=
  shard <- GetShard key ;;
  Lock shard ;;;
  r <- items_get shard key ;;
  let '(val, ok) := r in
  (if ok then
     tmp <- eval (assert_ifaces val) ;;
     let tmp := tmp ++ [value] in
     items_set shard key (VIfaces tmp)
   else items_set shard key value) ;;;
  Unlock shard ;;;
  ret ok.

Definition UpdateCb (key : string) (value : Value) (cb : UpsertCb E) : M bool :=
  shard <- GetShard key ;;
  Lock shard ;;;
  r <- items_get shard key ;;
  let '(v, ok) := r in
  (if ok then
     res <- call cb ok v value ;;
     items_set shard key res
   else ret tt) ;;;
  Unlock shard ;;;
  ret ok.

Definition Update (key : string) (value : Value) : M bool :=
  shard <- GetShard key ;;
  Lock shard ;;;
  r <- items_get shard key ;;
  let '(_, ok) := r in
  (if ok then items_set shard key value else ret tt) ;;;
  Unlock shard ;;;
  ret ok.

(** [m.HashMap[i]] for an index [i] computed by a loop. *)
Definition slot (i : nat) : M nat :=
  fun s =>
    if (i <? length (HashMap (fst s)))%nat then (Done i, s)
    else (Panicked IndexOutOfRange, s).

(** [len(shard.items)] *)
Definition items_len (shard : nat) : M Z :=
  sh <- deref shard ;;
  ret (Z.of_nat (size (items sh))).

(** The loop of [Count]: [n] iterations left, at index [i]. *)
Fixpoint Count_loop (n i : nat) (count : Z) : M Z :=
  match n with
  | O => ret count
  | S n' =>
      shard <- slot i ;;
      RLock shard ;;;
      len <- items_len shard ;;
      let count := to_int (count + len) in     (* count += len(shard.items) *)
      RUnlock shard ;;;
      Count_loop n' (S i) count
  end.

(** [Count]: the loop runs while [i < m.Shards]. *)
Definition Count : M Z :=
  fun s => Count_loop (Z.to_nat (Shards (fst s))) 0 0 s.

Definition IsEmpty : M bool :=
  count <- Count ;;
  ret (count =? 0).

(** [MSet]: the argument is the sequence of pairs that [range data]
    produces, that is the entries of [data], each once, in an order the
    run time picks. *)
Fixpoint MSet (data : list (string * Value)) : M unit :=
  match data with
  | [] => ret tt
  | (key, value) :: rest =>
      shard <- GetShard key ;;
      Lock shard ;;;
      items_set shard key value ;;;
      Unlock shard ;;;
      MSet rest
  end.

(** The callback type [IterCb] of the callback iterator. *)
Definition IterCbFunc : Type := string -> Value -> E -> Outcome unit * E.

(** [fn(key, value)] *)
Definition call_fn (fn : IterCbFunc) (key : string) (value : Value) : M unit :=
  fun s => let (r, e') := fn key value (snd s) in (r, (fst s, e')).

(** [for key, value := range shard.items { fn(key, value) }] over the
    sequence of pairs the range produces. *)
Fixpoint range_items (fn : IterCbFunc) (kvs : list (string * Value)) : M unit :=
  match kvs with
  | [] => ret tt
  | (key, value) :: rest => call_fn fn key value ;;; range_items fn rest
  end.

(** The loop of [IterCb] over the indices of [m.HashMap].  [order idx its]
    is the sequence in which the range over the items [its] of shard
    [idx] produces its pairs. *)
Fixpoint IterCb_loop (order : nat -> gmap string Value -> list (string * Value))
    (fn : IterCbFunc) (n idx : nat) : M unit :=
  match n with
  | O => ret tt
  | S n' =>
      shard <- slot idx ;;
      RLock shard ;;;
      sh <- deref shard ;;
      range_items fn (order idx (items sh)) ;;;
      RUnlock shard ;;;
      IterCb_loop order fn n' (S idx)
  end.

Definition IterCb (order : nat -> gmap string Value -> list (string * Value))
    (fn : IterCbFunc) : M unit :=
  fun s => IterCb_loop order fn (length (HashMap (fst s))) 0 s.

End Operations.

(** ** Observations and well-formed tables *)

(** The map held by slot [j] (empty for a nil or missing slot). *)
Definition shard_items (m : ConcurrentHashMap) (j : nat) : gmap string Value :=
  match HashMap m !! j with
  | Some (Some sh) => items sh
  | _ => ∅
  end.

(** What slot [j] stores under [k]. *)
Definition entry (m : ConcurrentHashMap) (j : nat) (k : string) : option Value :=
  shard_items m j !! k.

(** What the table stores under [k], in the shard [k] is routed to. *)
Definition stored (m : ConcurrentHashMap) (k : string) : option Value :=
  entry m (shard_index m k) k.

(** The pair a lookup [v, ok := items[key]] yields. *)
Definition comma_ok (o : option Value) : Value * bool :=
  match o with
  | Some v => (v, true)
  | None => (VNil, false)
  end.

(** Tables as [New] builds them and the operations keep them: a positive
    shard count in the range of [int], one slot per shard, every slot a
    shard whose lock is free. *)
Definition wf (m : ConcurrentHashMap) : Prop :=
  0 < Shards m < 2 ^ 63 /\
  Z.of_nat (length (HashMap m)) = Shards m /\
  forall j, (j < length (HashMap m))%nat ->
    exists sh, HashMap m !! j = Some (Some sh) /\ mu sh = unlocked.

(** Slot [j] replaced by an unlocked shard holding [its]. *)
Definition with_items (m : ConcurrentHashMap) (j : nat)
    (its : gmap string Value) : ConcurrentHashMap :=
  {| Shards := Shards m;
     HashMap := <[j := Some {| items := its; mu := unlocked |}]> (HashMap m) |}.

(** Slot [j] replaced by a shard holding [its] whose write lock is held. *)
Definition with_locked (m : ConcurrentHashMap) (j : nat)
    (its : gmap string Value) : ConcurrentHashMap :=
  {| Shards := Shards m;
     HashMap := <[j := Some {| items := its;
                               mu := {| writer := true; readers := 0 |} |}]>
                  (HashMap m) |}.

(** Slot [j] replaced by a shard holding [its] with one reader inside. *)
Definition with_rlocked (m : ConcurrentHashMap) (j : nat)
    (its : gmap string Value) : ConcurrentHashMap :=
  {| Shards := Shards m;
     HashMap := <[j := Some {| items := its;
                               mu := {| writer := false; readers := 1 |} |}]>
                  (HashMap m) |}.

(** What [wf] gives at the slot of a key. *)
Record located (m : ConcurrentHashMap) (i : nat) (its : gmap string Value) : Prop :=
  { loc_div : (to_uint (Shards m) =? 0) = false;
    loc_lt : (i <? length (HashMap m))%nat = true;
    loc_lt' : (i < length (HashMap m))%nat;
    loc_sh : HashMap m !! i = Some (Some {| items := its; mu := unlocked |}) }.

(** ** Callbacks *)

(** One invocation of a callback: the arguments it received. *)
Definition Invocation : Type := bool * Value * Value.

(** [spy cb] behaves as [cb] and records every invocation, in order. *)
Definition spy {E : Type} (cb : UpsertCb E) : UpsertCb (E * list Invocation) :=
  fun ok v value s =>
    let o := cb ok v value (fst s) in
    (fst o, (snd o, snd s ++ [(ok, v, value)])).

(** The callback of [TestUpsert] and [TestUpdateCb]: it appends an
    [Animal] to a [[]Animal], starting a new slice when the key is new. *)
Definition appendCombiner {E : Type} : UpsertCb E :=
  fun exist valueInMap newValue e =>
    match newValue with
    | VAnimal nv =>                                  (* newValue.(Animal) *)
        if negb exist then (Done (VAnimals [nv]), e)
        else match valueInMap with
             | VAnimals res => (Done (VAnimals (res ++ [nv])), e)
             | _ => (Panicked BadAssertion, e)       (* valueInMap.([]Animal) *)
             end
    | _ => (Panicked BadAssertion, e)
    end.

(** ** The single-key operations as one type *)

Inductive Reply : Type :=
| NoReply
| BoolReply (b : bool)
| ValueReply (v : Value)
| CommaOk (v : Value) (ok : bool).

Inductive Call (E : Type) : Type :=
| CSet (key : string) (value : Value)
| CGet (key : string)
| CHas (key : string)
| CRemove (key : string)
| CPop (key : string)
| CSetIfAbsent (key : string) (value : Value)
| CSetIfPresent (key : string) (newValue oldValue : Value)
| CAddIfPresent (key : string) (value : Value)
| CUpsert (key : string) (value : Value) (cb : UpsertCb E)
| CUpdate (key : string) (value : Value)
| CUpdateCb (key : string) (value : Value) (cb : UpsertCb E).

Arguments CSet {E} key value.
Arguments CGet {E} key.
Arguments CHas {E} key.
Arguments CRemove {E} key.
Arguments CPop {E} key.
Arguments CSetIfAbsent {E} key value.
Arguments CSetIfPresent {E} key newValue oldValue.
Arguments CAddIfPresent {E} key value.
Arguments CUpsert {E} key value cb.
Arguments CUpdate {E} key value.
Arguments CUpdateCb {E} key value cb.

Definition call_key {E : Type} (c : Call E) : string :=
  match c with
  | CSet key _ | CGet key | CHas key | CRemove key | CPop key
  | CSetIfAbsent key _ | CSetIfPresent key _ _ | CAddIfPresent key _
  | CUpsert key _ _ | CUpdate key _ | CUpdateCb key _ _ => key
  end.

Definition perform {E : Type} (c : Call E) : M (E := E) Reply :=
  match c with
  | CSet key value => bind (Set_ key value) (fun _ => ret NoReply)
  | CGet key => bind (Get key) (fun r => ret (CommaOk (fst r) (snd r)))
  | CHas key => bind (Has key) (fun b => ret (BoolReply b))
  | CRemove key => bind (Remove key) (fun _ => ret NoReply)
  | CPop key => bind (Pop key) (fun r => ret (CommaOk (fst r) (snd r)))
  | CSetIfAbsent key value =>
      bind (SetIfAbsent key value) (fun b => ret (BoolReply b))
  | CSetIfPresent key newValue oldValue =>
      bind (SetIfPresent key newValue oldValue) (fun b => ret (BoolReply b))
  | CAddIfPresent key value =>
      bind (AddIfPresent key value) (fun b => ret (BoolReply b))
  | CUpsert key value cb =>
      bind (Upsert key value cb) (fun v => ret (ValueReply v))
  | CUpdate key value => bind (Update key value) (fun b => ret (BoolReply b))
  | CUpdateCb key value cb =>
      bind (UpdateCb key value cb) (fun b => ret (BoolReply b))
  end.

(** ** Tables used in examples *)

Definition table (shards : Z) : ConcurrentHashMap :=
  {| Shards := shards;
     HashMap := replicate (Z.to_nat shards) (Some empty_shard) |}.

(** The table [New(64)] returns, after [Set(key, value)]. *)
Definition table_with (key : string) (value : Value) : ConcurrentHashMap :=
  with_items (table 64) (shard_index (table 64) key) {[key := value]}.

(** ** Whole-table observations *)

(** Number of entries behind a slot. *)
Definition slot_size (o : option ConcurrentMapShared) : nat :=
  match o with
  | Some sh => size (items sh)
  | None => 0
  end.

(** Number of entries of the table, all shards together. *)
Definition total (m : ConcurrentHashMap) : nat :=
  sum_list_with slot_size (HashMap m).

(** The entries behind a slot and of the whole table, shard by shard. *)
Definition slot_entries (o : option ConcurrentMapShared) : list (string * Value) :=
  match o with
  | Some sh => map_to_list (items sh)
  | None => []
  end.

Definition all_entries (m : ConcurrentHashMap) : list (string * Value) :=
  concat (slot_entries <$> HashMap m).

(** The items behind a slot (none behind a nil slot). *)
Definition slot_items (o : option ConcurrentMapShared) : gmap string Value :=
  match o with
  | Some sh => items sh
  | None => ∅
  end.

(** The pairs the callback iterator hands to its callback: the slots in
    index order starting at [idx], each slot in its range order. *)
Fixpoint visit_order (order : nat -> gmap string Value -> list (string * Value))
    (idx : nat) (slots : list (option ConcurrentMapShared))
  : list (string * Value) :=
  match slots with
  | [] => []
  | o :: rest => order idx (slot_items o) ++ visit_order order (S idx) rest
  end.

(** Every key sits in the shard its hash selects. *)
Definition routed (m : ConcurrentHashMap) : Prop :=
  forall j k, is_Some (entry m j k) -> j = shard_index m k.

(** Slot [j] replaced by a shard holding [its] under the lock state [l]. *)
Definition with_shard (m : ConcurrentHashMap) (j : nat)
    (its : gmap string Value) (l : RWMutex) : ConcurrentHashMap :=
  {| Shards := Shards m;
     HashMap := <[j := Some {| items := its; mu := l |}]> (HashMap m) |}.

(** Tables reached from [New] by single-key operations that complete. *)
Inductive reachable : ConcurrentHashMap -> Prop :=
| reach_New (shards : Z) :
    0 < shards < 2 ^ 63 -> reachable (table shards)
| reach_perform (E : Type) (c : Call E) (m : ConcurrentHashMap) (e : E)
    (r : Reply) (s' : ConcurrentHashMap * E) :
    reachable m -> perform c (m, e) = (Done r, s') -> reachable (fst s').

(** The operations that run caller code or a run-time check on the
    stored value: a comparison, a type assertion or a callback. *)
Definition runs_checks {E : Type} (c : Call E) : bool :=
  match c with
  | CSetIfPresent _ _ _ | CAddIfPresent _ _ | CUpsert _ _ _ | CUpdateCb _ _ _ => true
  | _ => false
  end.

(** A callback that replaces the value by the new one. *)
Definition replaceCb {E : Type} : UpsertCb E :=
  fun _ _ newValue e => (Done newValue, e).

(** An iteration callback that records the pairs it is given. *)
Definition recorder : IterCbFunc (E := list (string * Value)) :=
  fun key value seen => (Done tt, seen ++ [(key, value)]).

(** An iteration callback that panics on every pair. *)
Definition failing : IterCbFunc (E := unit) :=
  fun _ _ e => (Panicked (Raised "boom"), e).

(** The range order used in examples: the listing of the map. *)
Definition listing_order : nat -> gmap string Value -> list (string * Value) :=
  fun _ its => map_to_list its.

(** ** The operations over slices that share backing arrays *)

(** [append] writes in place when the slice has spare capacity, so two
    stored [[]interface{}] values cut from one array can see each other's
    writes.  This module repeats the table and its single-key operations
    with a [[]interface{}] value represented as Go represents it: a
    window on a backing array held in a memory of arrays. *)
Module Backed.

(** A slice header: [len] elements, extensible up to [cap], starting at
    index [off] of the backing array [base]. *)
Record Slice : Type := { base : nat; off : nat; len : nat; cap : nat }.

Inductive Val : Type :=
| NilV
| BoolV (b : bool)
| IntV (n : Z)
| StringV (s : string)
| AnimalV (name : string)
| AnimalsV (names : list string)
| IfacesV (s : Slice).

(** The memory of backing arrays, by array. *)
Abbreviation Memory := (gmap nat (list Val)).

(** One cell of one array. *)
Definition cell (mem : Memory) (a i : nat) : option Val :=
  match mem !! a with
  | Some cells => cells !! i
  | None => None
  end.

(** The elements a slice shows. *)
Definition elements (mem : Memory) (s : Slice) : list Val :=
  match mem !! base s with
  | Some cells => take (len s) (drop (off s) cells)
  | None => []
  end.

(** [a == b] on two interface values. *)
Definition iface_eq (a b : Val) : Outcome bool :=
  match a, b with
  | NilV, NilV => Done true
  | BoolV x, BoolV y => Done (Bool.eqb x y)
  | IntV x, IntV y => Done (x =? y)
  | StringV x, StringV y => Done (String.eqb x y)
  | AnimalV x, AnimalV y => Done (String.eqb x y)
  | AnimalsV _, AnimalsV _ => Panicked Uncomparable
  | IfacesV _, IfacesV _ => Panicked Uncomparable
  | _, _ => Done false
  end.

(** [val.([]interface{})] *)
Definition assert_ifaces (val : Val) : Outcome Slice :=
  match val with
  | IfacesV s => Done s
  | _ => Panicked BadAssertion
  end.

(** [append(tmp, value)].  With spare capacity the value is written into
    the backing array just after the slice's last element.  Without, the
    elements are copied into a new array, of the capacity [growth] the
    run time picks for the needed length, followed by the value. *)
Definition append (growth : nat -> nat) (tmp : Slice) (value : Val)
    (mem : Memory) : Slice * Memory :=
  if (len tmp <? cap tmp)%nat then
    ({| base := base tmp; off := off tmp; len := S (len tmp); cap := cap tmp |},
     alter (fun cells => <[(off tmp + len tmp)%nat := value]> cells) (base tmp) mem)
  else
    let a := fresh (dom mem) in
    let n := growth (S (len tmp)) in
    ({| base := a; off := 0%nat; len := S (len tmp); cap := n |},
     <[a := (elements mem tmp ++ [value]) ++ replicate (n - S (len tmp)) NilV]> mem).

Record ConcurrentMapShared : Type :=
  { items : gmap string Val;
    mu : RWMutex }.

Record ConcurrentHashMap : Type :=
  { Shards : Z;
    HashMap : list (option ConcurrentMapShared) }.

Definition shard_index (m : ConcurrentHashMap) (key : string) : nat :=
  Z.to_nat (to_uint (Hasher.fnv32 key) mod to_uint (Shards m)).

(** The callback type [UpsertCb]; a callback may read and write the
    memory of arrays and the state [E] its closure captures. *)
Definition UpsertCb (E : Type) : Type :=
  bool -> Val -> Val -> Memory * E -> Outcome Val * (Memory * E).

Section Operations.

Context {E : Type}.
Variable growth : nat -> nat.

Definition State : Type := ConcurrentHashMap * (Memory * E).

Definition M (A : Type) : Type := State -> Outcome A * State.

Definition ret {A} (a : A) : M A := fun s => (Done a, s).

Definition bind {A B} (c : M A) (k : A -> M B) : M B :=
  fun s =>
    match c s with
    | (Done a, s') => k a s'
    | (Panicked p, s') => (Panicked p, s')
    | (Blocked, s') => (Blocked, s')
    end.

Definition panic {A} (p : PanicKind) : M A := fun s => (Panicked p, s).
Definition block {A} : M A := fun s => (Blocked, s).
Definition eval {A} (o : Outcome A) : M A := fun s => (o, s).

Notation "x <- c ;; k" := (bind c (fun x => k))
  (at level 100, c at next level, right associativity).
Notation "c ;;; k" := (bind c (fun _ => k))
  (at level 100, right associativity).

Definition GetShard (key : string) : M nat :=
  fun s =>
    let m := fst s in
    if to_uint (Shards m) =? 0 then (Panicked DivideByZero, s)
    else if (shard_index m key <? length (HashMap m))%nat
         then (Done (shard_index m key), s)
         else (Panicked IndexOutOfRange, s).

Definition deref (shard : nat) : M ConcurrentMapShared :=
  fun s =>
    match HashMap (fst s) !! shard with
    | Some (Some sh) => (Done sh, s)
    | _ => (Panicked NilDereference, s)
    end.

Definition assign (shard : nat) (sh : ConcurrentMapShared) : M unit :=
  fun s =>
    (Done tt,
     ({| Shards := Shards (fst s);
         HashMap := <[shard := Some sh]> (HashMap (fst s)) |}, snd s)).

Definition Lock (shard : nat) : M unit :=
  sh <- deref shard ;;
  if writer (mu sh) || negb (readers (mu sh) =? 0)%nat then block
  else assign shard {| items := items sh;
                       mu := {| writer := true; readers := readers (mu sh) |} |}.

Definition Unlock (shard : nat) : M unit :=
  sh <- deref shard ;;
  if writer (mu sh)
  then assign shard {| items := items sh;
                       mu := {| writer := false; readers := readers (mu sh) |} |}
  else panic UnlockOfUnlocked.

Definition RLock (shard : nat) : M unit :=
  sh <- deref shard ;;
  if writer (mu sh) then block
  else assign shard {| items := items sh;
                       mu := {| writer := false; readers := S (readers (mu sh)) |} |}.

Definition RUnlock (shard : nat) : M unit :=
  sh <- deref shard ;;
  match readers (mu sh) with
  | O => panic UnlockOfUnlocked
  | S n => assign shard {| items := items sh;
                           mu := {| writer := writer (mu sh); readers := n |} |}
  end.

Definition items_get (shard : nat) (key : string) : M (Val * bool) :=
  sh <- deref shard ;;
  ret (match items sh !! key with
       | Some v => (v, true)
       | None => (NilV, false)
       end).

Definition items_set (shard : nat) (key : string) (value : Val) : M unit :=
  sh <- deref shard ;;
  assign shard {| items := <[key := value]> (items sh); mu := mu sh |}.

Definition items_delete (shard : nat) (key : string) : M unit :=
  sh <- deref shard ;;
  assign shard {| items := delete key (items sh); mu := mu sh |}.

(** [cb(ok, v, value)] *)
Definition call (cb : UpsertCb E) (ok : bool) (v value : Val) : M Val :=
  fun s => let (r, me) := cb ok v value (snd s) in (r, (fst s, me)).

(** [tmp = append(tmp, value)] *)
Definition append_to (tmp : Slice) (value : Val) : M Slice :=
  fun s =>
    let (tmp', mem') := append growth tmp value (fst (snd s)) in
    (Done tmp', (fst s, (mem', snd (snd s)))).

Definition Set_ (key : string) (value : Val) : M unit :=
  shard <- GetShard key ;;
  Lock shard ;;;
  items_set shard key value ;;;
  Unlock shard.

Definition Upsert (key : string) (value : Val) (cb : UpsertCb E) : M Val :=
  shard <- GetShard key ;;
  Lock shard ;;;
  r <- items_get shard key ;;
  let '(v, ok) := r in
  res <- call cb ok v value ;;
  items_set shard key res ;;;
  Unlock shard ;;;
  ret res.

Definition SetIfAbsent (key : string) (value : Val) : M bool :=
  shard <- GetShard key ;;
  Lock shard ;;;
  r <- items_get shard key ;;
  let '(_, ok) := r in
  (if negb ok then items_set shard key value else ret tt) ;;;
  Unlock shard ;;;
  ret (negb ok).

Definition Get (key : string) : M (Val * bool) :=
  shard <- GetShard key ;;
  RLock shard ;;;
  r <- items_get shard key ;;
  RUnlock shard ;;;
  ret r.

Definition Has (key : string) : M bool :=
  shard <- GetShard key ;;
  RLock shard ;;;
  r <- items_get shard key ;;
  RUnlock shard ;;;
  ret (snd r).

Definition Remove (key : string) : M unit :=
  shard <- GetShard key ;;
  Lock shard ;;;
  items_delete shard key ;;;
  Unlock shard.

Definition Pop (key : string) : M (Val * bool) :=
  shard <- GetShard key ;;
  Lock shard ;;;
  r <- items_get shard key ;;
  items_delete shard key ;;;
  Unlock shard ;;;
  ret r.

Definition SetIfPresent (key : string) (newValue oldValue : Val) : M bool :=
  shard <- GetShard key ;;
  Lock shard ;;;
  r <- items_get shard key ;;
  let '(val, ok) := r in
  ok <- (if ok then eval (iface_eq val oldValue) else ret false) ;;
  (if ok then items_set shard key newValue else ret tt) ;;;
  Unlock shard ;;;
  ret ok.

Definition AddIfPresent (key : string) (value : Val) : M bool :=
  shard <- GetShard key ;;
  Lock shard ;;;
  r <- items_get shard key ;;
  let '(val, ok) := r in
  (if ok then
     tmp <- eval (assert_ifaces val) ;;
     tmp <- append_to tmp value ;;
     items_set shard key (IfacesV tmp)
   else items_set shard key value) ;;;
  Unlock shard ;;;
  ret ok.

Definition UpdateCb (key : string) (value : Val) (cb : UpsertCb E) : M bool :=
  shard <- GetShard key ;;
  Lock shard ;;;
  r <- items_get shard key ;;
  let '(v, ok) := r in
  (if ok then
     res <- call cb ok v value ;;
     items_set shard key res
   else ret tt) ;;;
  Unlock shard ;;;
  ret ok.

Definition Update (key : string) (value : Val) : M bool :=
  shard <- GetShard key ;;
  Lock shard ;;;
  r <- items_get shard key ;;
  let '(_, ok) := r in
  (if ok then items_set shard key value else ret tt) ;;;
  Unlock shard ;;;
  ret ok.

End Operations.

(** The replies of the operations and the operations as one type. *)
Inductive Reply : Type :=
| NoReply
| BoolReply (b : bool)
| ValReply (v : Val)
| CommaOk (v : Val) (ok : bool).

Inductive Call (E : Type) : Type :=
| CSet (key : string) (value : Val)
| CGet (key : string)
| CHas (key : string)
| CRemove (key : string)
| CPop (key : string)
| CSetIfAbsent (key : string) (value : Val)
| CSetIfPresent (key : string) (newValue oldValue : Val)
| CAddIfPresent (key : string) (value : Val)
| CUpsert (key : string) (value : Val) (cb : UpsertCb E)
| CUpdate (key : string) (value : Val)
| CUpdateCb (key : string) (value : Val) (cb : UpsertCb E).

Arguments CSet {E} key value.
Arguments CGet {E} key.
Arguments CHas {E} key.
Arguments CRemove {E} key.
Arguments CPop {E} key.
Arguments CSetIfAbsent {E} key value.
Arguments CSetIfPresent {E} key newValue oldValue.
Arguments CAddIfPresent {E} key value.
Arguments CUpsert {E} key value cb.
Arguments CUpdate {E} key value.
Arguments CUpdateCb {E} key value cb.

Definition call_key {E : Type} (c : Call E) : string :=
  match c with
  | CSet key _ | CGet key | CHas key | CRemove key | CPop key
  | CSetIfAbsent key _ | CSetIfPresent key _ _ | CAddIfPresent key _
  | CUpsert key _ _ | CUpdate key _ | CUpdateCb key _ _ => key
  end.

Definition perform {E : Type} (growth : nat -> nat) (c : Call E)
  : M (E := E) Reply :=
  match c with
  | CSet key value => bind (Set_ key value) (fun _ => ret NoReply)
  | CGet key => bind (Get key) (fun r => ret (CommaOk (fst r) (snd r)))
  | CHas key => bind (Has key) (fun b => ret (BoolReply b))
  | CRemove key => bind (Remove key) (fun _ => ret NoReply)
  | CPop key => bind (Pop key) (fun r => ret (CommaOk (fst r) (snd r)))
  | CSetIfAbsent key value =>
      bind (SetIfAbsent key value) (fun b => ret (BoolReply b))
  | CSetIfPresent key newValue oldValue =>
      bind (SetIfPresent key newValue oldValue) (fun b => ret (BoolReply b))
  | CAddIfPresent key value =>
      bind (AddIfPresent growth key value) (fun b => ret (BoolReply b))
  | CUpsert key value cb =>
      bind (Upsert key value cb) (fun v => ret (ValReply v))
  | CUpdate key value => bind (Update key value) (fun b => ret (BoolReply b))
  | CUpdateCb key value cb =>
      bind (UpdateCb key value cb) (fun b => ret (BoolReply b))
  end.

(** A callback that leaves the memory of arrays as it finds it. *)
Definition keeps_memory {E : Type} (cb : UpsertCb E) : Prop :=
  forall ok v value me, fst (snd (cb ok v value me)) = fst me.

(** The operations that do not touch the memory of arrays themselves
    and run no callback: all but [AddIfPresent], [Upsert] and
    [UpdateCb]. *)
Definition leaves_memory {E : Type} (c : Call E) : bool :=
  match c with
  | CAddIfPresent _ _ | CUpsert _ _ _ | CUpdateCb _ _ _ => false
  | _ => true
  end.

(** The callback of an operation that takes one. *)
Definition callback {E : Type} (c : Call E) : option (UpsertCb E) :=
  match c with
  | CUpsert _ _ cb | CUpdateCb _ _ cb => Some cb
  | _ => None
  end.

(** Observations. *)
Definition shard_items (m : ConcurrentHashMap) (j : nat) : gmap string Val :=
  match HashMap m !! j with
  | Some (Some sh) => items sh
  | _ => ∅
  end.

Definition entry (m : ConcurrentHashMap) (j : nat) (k : string) : option Val :=
  shard_items m j !! k.

Definition stored (m : ConcurrentHashMap) (k : string) : option Val :=
  entry m (shard_index m k) k.

(** What a reader of the value stored under [k] sees: the value and,
    for a slice, its elements. *)
Definition read (m : ConcurrentHashMap) (mem : Memory) (k : string)
  : option (Val * list Val) :=
  match stored m k with
  | Some (IfacesV s) => Some (IfacesV s, elements mem s)
  | Some v => Some (v, [])
  | None => None
  end.

(** The cell [AddIfPresent key] writes in place, if it does: the first
    spare cell of the slice stored under [key]. *)
Definition written_cell (m : ConcurrentHashMap) (key : string) : option (nat * nat) :=
  match stored m key with
  | Some (IfacesV s) =>
      if (len s <? cap s)%nat then Some (base s, (off s + len s)%nat) else None
  | _ => None
  end.

Definition wf (m : ConcurrentHashMap) : Prop :=
  0 < Shards m < 2 ^ 63 /\
  Z.of_nat (length (HashMap m)) = Shards m /\
  forall j, (j < length (HashMap m))%nat ->
    exists sh, HashMap m !! j = Some (Some sh) /\ mu sh = unlocked.

Definition with_shard (m : ConcurrentHashMap) (j : nat)
    (its : gmap string Val) (l : RWMutex) : ConcurrentHashMap :=
  {| Shards := Shards m;
     HashMap := <[j := Some {| items := its; mu := l |}]> (HashMap m) |}.

Definition locked : RWMutex := {| writer := true; readers := 0 |}.

(** [m'] differs from [m] at most in what is stored under [k]. *)
Definition frame (k : string) (m m' : ConcurrentHashMap) : Prop :=
  Shards m' = Shards m /\
  length (HashMap m') = length (HashMap m) /\
  (forall j, HashMap m' !! j = Some None <-> HashMap m !! j = Some None) /\
  (forall j k', k' <> k -> entry m' j k' = entry m j k').

Definition within_frame {E A : Type} (k : string) (c : M (E := E) A) : Prop :=
  forall s, frame k (fst s) (fst (snd (c s))).

(** A computation that leaves the memory of arrays alone. *)
Definition calm {E A : Type} (c : M (E := E) A) : Prop :=
  forall s, fst (snd (snd (c s))) = fst (snd s).

(** The table [New(64)] returns and the example of two slices cut from
    one array: [arr := []interface{}{1, 2}], then [Set("k", arr)] and
    [Set("j", arr[:1])]. *)
Definition table (shards : Z) : ConcurrentHashMap :=
  {| Shards := shards;
     HashMap := replicate (Z.to_nat shards)
                  (Some {| items := ∅; mu := unlocked |}) |}.

Definition arr : Slice := {| base := 0; off := 0; len := 2; cap := 2 |}.
Definition arr_1 : Slice := {| base := 0; off := 0; len := 1; cap := 2 |}.
Definition one_array : Memory := {[ 0%nat := [IntV 1; IntV 2] ]}.

(** A second example, two slices on two arrays: [Set("k", []interface{}{7})]
    and [Set("j", arr[:1])]. *)
Definition other : Slice := {| base := 1; off := 0; len := 1; cap := 1 |}.
Definition two_arrays : Memory :=
  {[ 0%nat := [IntV 1; IntV 2]; 1%nat := [IntV 7] ]}.

Definition separate_example : State (E := unit) :=
  snd (Set_ "j" (IfacesV arr_1)
         (snd (Set_ "k" (IfacesV other) (table 64, (two_arrays, tt))))).

(** A growth of capacities, for the examples: doubling. *)
Definition doubling (needed : nat) : nat := (2 * needed)%nat.

Definition shared_example : State (E := unit) :=
  snd (Set_ "j" (IfacesV arr_1)
         (snd (Set_ "k" (IfacesV arr) (table 64, (one_array, tt))))).

End Backed.

(** ** Basic facts *)

Lemma get_append_here (pre : string) (c : ascii) (suf : string) :
  String.get (String.length pre) (String.append pre (String c suf)) = Some c.
Proof.
  induction pre as [|a pre IH]; [reflexivity | exact IH].
Qed.

Lemma append_snoc_cons (pre : string) (c : ascii) (suf : string) :
  String.append (String.append pre (String c EmptyString)) suf =
  String.append pre (String c suf).
Proof.
  induction pre as [|a pre IH]; [reflexivity|].
  exact (f_equal (String a) IH).
Qed.

Lemma length_append_one (pre : string) (c : ascii) :
  String.length (String.append pre (String c EmptyString)) = S (String.length pre).
Proof.
  induction pre as [|a pre IH]; [reflexivity|].
  exact (f_equal S IH).
Qed.

Lemma fnv32_loop_fold (pre suf : string) (h : Z) :
  Hasher.fnv32_loop (String.append pre suf) (String.length suf) (String.length pre) h =
  List.fold_left (fun h b => Z.lxor ((h * 16777619) mod 2 ^ 32) b)
                 (Hasher.bytes_of suf) h.
Proof.
  revert pre h. induction suf as [|c suf IH]; intros pre h.
  - reflexivity.
  - cbn [String.length Hasher.fnv32_loop].
    rewrite get_append_here.
    rewrite <- append_snoc_cons, <- length_append_one with (c := c).
    rewrite IH. reflexivity.
Qed.

Lemma fnv32_range (key : string) : 0 <= Hasher.fnv32 key < 2 ^ 32.
Proof.
  unfold Hasher.fnv32.
  assert (H0 : 0 <= Hasher.offset32 < 2 ^ 32) by (unfold Hasher.offset32; lia).
  revert H0. generalize Hasher.offset32 as h, 0%nat as i.
  induction (String.length key) as [|n IH]; intros h i Hh; cbn [Hasher.fnv32_loop].
  - exact Hh.
  - destruct (String.get i key) as [c|]; [|exact Hh].
    apply IH.
    assert (Hw : 0 <= Hasher.wrap32 (h * Hasher.prime32) < 2 ^ 32)
      by (unfold Hasher.wrap32; apply Z.mod_pos_bound; lia).
    assert (Hb : 0 <= Hasher.byte_val c < 2 ^ 32).
    { unfold Hasher.byte_val. pose proof (N_ascii_bounded c) as Hc. lia. }
    split.
    + apply Z.lxor_nonneg. lia.
    + destruct (Z.eq_dec (Z.lxor (Hasher.wrap32 (h * Hasher.prime32)) (Hasher.byte_val c)) 0)
        as [->|Hne]; [lia|].
      apply Z.log2_lt_pow2.
      * assert (0 <= Z.lxor (Hasher.wrap32 (h * Hasher.prime32)) (Hasher.byte_val c))
          by (apply Z.lxor_nonneg; lia). lia.
      * eapply Z.le_lt_trans; [apply Z.log2_lxor; lia|].
        apply Z.max_lub_lt.
        -- destruct (Z.eq_dec (Hasher.wrap32 (h * Hasher.prime32)) 0) as [->|?];
             [cbn; lia | apply Z.log2_lt_pow2; lia].
        -- destruct (Z.eq_dec (Hasher.byte_val c) 0) as [->|?];
             [cbn; lia | apply Z.log2_lt_pow2; lia].
Qed.

(** ** Running the operations on a well-formed table *)

Lemma to_uint_small (z : Z) : 0 <= z < 2 ^ 64 -> to_uint z = z.
Proof. intros Hz. unfold to_uint. apply Z.mod_small. exact Hz. Qed.

Lemma shard_index_lt (m : ConcurrentHashMap) (key : string) :
  wf m -> (shard_index m key < length (HashMap m))%nat.
Proof.
  intros (Hs & Hlen & _). unfold shard_index.
  pose proof (fnv32_range key) as Hh.
  rewrite (to_uint_small (Hasher.fnv32 key)) by lia.
  rewrite (to_uint_small (Shards m)) by lia.
  pose proof (Z.mod_pos_bound (Hasher.fnv32 key) (Shards m)) as Hb.
  lia.
Qed.

Lemma wf_located (m : ConcurrentHashMap) (key : string) :
  wf m -> located m (shard_index m key) (shard_items m (shard_index m key)).
Proof.
  intros Hwf. pose proof (shard_index_lt m key Hwf) as Hlt.
  destruct Hwf as (Hs & Hlen & Hall).
  destruct (Hall _ Hlt) as (sh & Hsh & Hmu).
  split.
  - rewrite to_uint_small by lia. apply Z.eqb_neq. lia.
  - apply Nat.ltb_lt. exact Hlt.
  - exact Hlt.
  - unfold shard_items. rewrite Hsh. destruct sh as [its l]. cbn in *. now subst l.
Qed.

Ltac locate m key :=
  let L := fresh "L" in
  pose proof (wf_located m key ltac:(assumption)) as L;
  generalize dependent (shard_items m (shard_index m key));
  generalize dependent (shard_index m key);
  intros ? ? L; destruct L.

Section Runs.

Context {E : Type}.
Implicit Types (m : ConcurrentHashMap) (e : E) (key : string) (value : Value).
Implicit Types (i : nat) (its : gmap string Value).

Lemma GetShard_run m e key :
  wf m -> GetShard key (m, e) = (Done (shard_index m key), (m, e)).
Proof.
  intros Hwf. destruct (wf_located m key Hwf) as [Hd Hlt _ _].
  unfold GetShard. cbn [fst]. now rewrite Hd, Hlt.
Qed.

Lemma Lock_run m e i its :
  HashMap m !! i = Some (Some {| items := its; mu := unlocked |}) ->
  Lock i (m, e) = (Done tt, (with_locked m i its, e)).
Proof.
  intros Hsh. unfold Lock, bind, deref. cbn [fst]. now rewrite Hsh.
Qed.

Lemma RLock_run m e i its :
  HashMap m !! i = Some (Some {| items := its; mu := unlocked |}) ->
  RLock i (m, e) = (Done tt, (with_rlocked m i its, e)).
Proof.
  intros Hsh. unfold RLock, bind, deref. cbn [fst]. now rewrite Hsh.
Qed.

Lemma items_get_locked m e i its key :
  (i < length (HashMap m))%nat ->
  items_get i key (with_locked m i its, e) =
  (Done (comma_ok (its !! key)), (with_locked m i its, e)).
Proof.
  intros Hlt. unfold items_get, bind, deref, with_locked. cbn [fst HashMap].
  now rewrite list_lookup_insert_eq.
Qed.

Lemma items_get_rlocked m e i its key :
  (i < length (HashMap m))%nat ->
  items_get i key (with_rlocked m i its, e) =
  (Done (comma_ok (its !! key)), (with_rlocked m i its, e)).
Proof.
  intros Hlt. unfold items_get, bind, deref, with_rlocked. cbn [fst HashMap].
  now rewrite list_lookup_insert_eq.
Qed.

Lemma items_set_locked m e i its key value :
  (i < length (HashMap m))%nat ->
  items_set i key value (with_locked m i its, e) =
  (Done tt, (with_locked m i (<[key := value]> its), e)).
Proof.
  intros Hlt. unfold items_set, bind, deref, assign, with_locked.
  cbn [fst snd HashMap Shards]. rewrite list_lookup_insert_eq by assumption.
  cbn. now rewrite list_insert_insert_eq.
Qed.

Lemma items_delete_locked m e i its key :
  (i < length (HashMap m))%nat ->
  items_delete i key (with_locked m i its, e) =
  (Done tt, (with_locked m i (delete key its), e)).
Proof.
  intros Hlt. unfold items_delete, bind, deref, assign, with_locked.
  cbn [fst snd HashMap Shards]. rewrite list_lookup_insert_eq by assumption.
  cbn. now rewrite list_insert_insert_eq.
Qed.

Lemma Unlock_locked m e i its :
  (i < length (HashMap m))%nat ->
  Unlock i (with_locked m i its, e) = (Done tt, (with_items m i its, e)).
Proof.
  intros Hlt. unfold Unlock, bind, deref, assign, with_locked, with_items.
  cbn [fst snd HashMap Shards]. rewrite list_lookup_insert_eq by assumption.
  cbn. now rewrite list_insert_insert_eq.
Qed.

Lemma RUnlock_rlocked m e i its :
  (i < length (HashMap m))%nat ->
  RUnlock i (with_rlocked m i its, e) = (Done tt, (with_items m i its, e)).
Proof.
  intros Hlt. unfold RUnlock, bind, deref, assign, with_rlocked, with_items.
  cbn [fst snd HashMap Shards]. rewrite list_lookup_insert_eq by assumption.
  cbn. now rewrite list_insert_insert_eq.
Qed.

Lemma call_run m e (cb : UpsertCb E) (ok : bool) (v value : Value) :
  call cb ok v value (m, e) =
  (fst (cb ok v value e), (m, snd (cb ok v value e))).
Proof. unfold call. cbn [fst snd]. now destruct (cb ok v value e). Qed.

(** Writing back what a slot already holds changes nothing. *)
Lemma with_items_same m i its :
  HashMap m !! i = Some (Some {| items := its; mu := unlocked |}) ->
  with_items m i its = m.
Proof.
  intros Hsh. unfold with_items. rewrite list_insert_id by exact Hsh.
  now destruct m.
Qed.

End Runs.

Ltac go :=
  repeat first
    [ rewrite GetShard_run by assumption
    | rewrite (Lock_run _ _ _ _ ltac:(eassumption))
    | rewrite (RLock_run _ _ _ _ ltac:(eassumption))
    | rewrite items_get_locked by assumption
    | rewrite items_get_rlocked by assumption
    | rewrite items_set_locked by assumption
    | rewrite items_delete_locked by assumption
    | rewrite Unlock_locked by assumption
    | rewrite RUnlock_rlocked by assumption
    | rewrite call_run
    | progress cbv beta iota
    | progress cbn [comma_ok negb fst snd] ].

Section OpRuns.

Context {E : Type}.
Implicit Types (m : ConcurrentHashMap) (e : E) (key : string) (value : Value).

Lemma Set_run m e key value :
  wf m ->
  Set_ key value (m, e) =
  (Done tt, (with_items m (shard_index m key)
               (<[key := value]> (shard_items m (shard_index m key))), e)).
Proof.
  intros Hwf. unfold Set_, bind. rewrite GetShard_run by assumption.
  locate m key. go. reflexivity.
Qed.

Lemma Get_run m e key :
  wf m -> Get key (m, e) = (Done (comma_ok (stored m key)), (m, e)).
Proof.
  intros Hwf. unfold Get, bind, stored, entry. rewrite GetShard_run by assumption.
  locate m key. go. unfold ret. now rewrite with_items_same.
Qed.

Lemma Has_run m e key :
  wf m -> Has key (m, e) = (Done (snd (comma_ok (stored m key))), (m, e)).
Proof.
  intros Hwf. unfold Has, bind, stored, entry. rewrite GetShard_run by assumption.
  locate m key. go. unfold ret. now rewrite with_items_same.
Qed.

Lemma Remove_run m e key :
  wf m ->
  Remove key (m, e) =
  (Done tt, (with_items m (shard_index m key)
               (delete key (shard_items m (shard_index m key))), e)).
Proof.
  intros Hwf. unfold Remove, bind. rewrite GetShard_run by assumption.
  locate m key. go. reflexivity.
Qed.

Lemma Pop_run m e key :
  wf m ->
  Pop key (m, e) =
  (Done (comma_ok (stored m key)),
   (with_items m (shard_index m key)
      (delete key (shard_items m (shard_index m key))), e)).
Proof.
  intros Hwf. unfold Pop, bind, stored, entry. rewrite GetShard_run by assumption.
  locate m key. go. reflexivity.
Qed.

Lemma SetIfAbsent_run m e key value :
  wf m ->
  SetIfAbsent key value (m, e) =
  match stored m key with
  | None =>
      (Done true, (with_items m (shard_index m key)
                     (<[key := value]> (shard_items m (shard_index m key))), e))
  | Some _ => (Done false, (m, e))
  end.
Proof.
  intros Hwf. unfold SetIfAbsent, bind, stored, entry.
  rewrite GetShard_run by assumption. locate m key. go.
  destruct (g !! key); go; unfold ret; go; [now rewrite with_items_same | reflexivity].
Qed.

Lemma Update_run m e key value :
  wf m ->
  Update key value (m, e) =
  match stored m key with
  | Some _ =>
      (Done true, (with_items m (shard_index m key)
                     (<[key := value]> (shard_items m (shard_index m key))), e))
  | None => (Done false, (m, e))
  end.
Proof.
  intros Hwf. unfold Update, bind, stored, entry.
  rewrite GetShard_run by assumption. locate m key. go.
  destruct (g !! key); go; unfold ret; go; [reflexivity | now rewrite with_items_same].
Qed.

Lemma Upsert_run m e key value (cb : UpsertCb E) :
  wf m ->
  Upsert key value cb (m, e) =
  let i := shard_index m key in
  let r := comma_ok (stored m key) in
  let o := cb (snd r) (fst r) value e in
  match fst o with
  | Done res =>
      (Done res, (with_items m i (<[key := res]> (shard_items m i)), snd o))
  | Panicked p => (Panicked p, (with_locked m i (shard_items m i), snd o))
  | Blocked => (Blocked, (with_locked m i (shard_items m i), snd o))
  end.
Proof.
  intros Hwf. unfold Upsert, bind, stored, entry.
  rewrite GetShard_run by assumption. locate m key. go.
  destruct (g !! key) as [cur|]; go.
  - destruct (cb true cur value e) as [[res|p|] e']; go; reflexivity.
  - destruct (cb false VNil value e) as [[res|p|] e']; go; reflexivity.
Qed.

Lemma UpdateCb_run m e key value (cb : UpsertCb E) :
  wf m ->
  UpdateCb key value cb (m, e) =
  let i := shard_index m key in
  match stored m key with
  | None => (Done false, (m, e))
  | Some cur =>
      let o := cb true cur value e in
      match fst o with
      | Done res =>
          (Done true, (with_items m i (<[key := res]> (shard_items m i)), snd o))
      | Panicked p => (Panicked p, (with_locked m i (shard_items m i), snd o))
      | Blocked => (Blocked, (with_locked m i (shard_items m i), snd o))
      end
  end.
Proof.
  intros Hwf. unfold UpdateCb, bind, stored, entry.
  rewrite GetShard_run by assumption. locate m key. go.
  destruct (g !! key) as [cur|]; go.
  - destruct (cb true cur value e) as [[res|p|] e']; go; reflexivity.
  - unfold ret. go. now rewrite with_items_same.
Qed.

Lemma SetIfPresent_run m e key (newValue oldValue : Value) :
  wf m ->
  SetIfPresent key newValue oldValue (m, e) =
  let i := shard_index m key in
  match stored m key with
  | None => (Done false, (m, e))
  | Some val =>
      match iface_eq val oldValue with
      | Done true =>
          (Done true, (with_items m i (<[key := newValue]> (shard_items m i)), e))
      | Done false => (Done false, (m, e))
      | Panicked p => (Panicked p, (with_locked m i (shard_items m i), e))
      | Blocked => (Blocked, (with_locked m i (shard_items m i), e))
      end
  end.
Proof.
  intros Hwf. unfold SetIfPresent, bind, stored, entry.
  rewrite GetShard_run by assumption. locate m key. go.
  destruct (g !! key) as [val|]; go.
  - unfold eval. destruct (iface_eq val oldValue) as [[|]|p|]; go;
      unfold ret; go; try reflexivity. now rewrite with_items_same.
  - unfold ret. go. now rewrite with_items_same.
Qed.

Lemma AddIfPresent_run m e key value :
  wf m ->
  AddIfPresent key value (m, e) =
  let i := shard_index m key in
  match stored m key with
  | None =>
      (Done false, (with_items m i (<[key := value]> (shard_items m i)), e))
  | Some val =>
      match assert_ifaces val with
      | Done tmp =>
          (Done true,
           (with_items m i (<[key := VIfaces (tmp ++ [value])]> (shard_items m i)), e))
      | Panicked p => (Panicked p, (with_locked m i (shard_items m i), e))
      | Blocked => (Blocked, (with_locked m i (shard_items m i), e))
      end
  end.
Proof.
  intros Hwf. unfold AddIfPresent, bind, stored, entry.
  rewrite GetShard_run by assumption. locate m key. go.
  destruct (g !! key) as [val|]; go; [|reflexivity].
  unfold eval. destruct (assert_ifaces val) as [tmp|p|]; go; reflexivity.
Qed.

End OpRuns.

(** ** Observing an updated table *)

Lemma shard_index_with_items m i its key :
  shard_index (with_items m i its) key = shard_index m key.
Proof. reflexivity. Qed.

Lemma shard_items_with_items m i its j :
  (i < length (HashMap m))%nat ->
  shard_items (with_items m i its) j =
  if decide (i = j) then its else shard_items m j.
Proof.
  intros Hlt. unfold shard_items, with_items. cbn [HashMap].
  destruct (decide (i = j)) as [->|Hne].
  - now rewrite list_lookup_insert_eq.
  - now rewrite list_lookup_insert_ne.
Qed.

Lemma stored_with_items m key its :
  wf m ->
  stored (with_items m (shard_index m key) its) key = its !! key.
Proof.
  intros Hwf. unfold stored, entry. rewrite shard_index_with_items.
  rewrite shard_items_with_items by now apply shard_index_lt.
  now rewrite decide_True.
Qed.

Lemma wf_with_items m i its :
  wf m -> (i < length (HashMap m))%nat -> wf (with_items m i its).
Proof.
  intros (Hs & Hlen & Hall) Hlt. unfold wf, with_items. cbn [Shards HashMap].
  rewrite length_insert. repeat split; try lia.
  intros j Hj. destruct (decide (i = j)) as [->|Hne].
  - rewrite list_lookup_insert_eq by assumption. eauto.
  - rewrite list_lookup_insert_ne by assumption. auto.
Qed.

(** ** Construction *)

Lemma New_loop_fills (n : nat) (filled : list (option ConcurrentMapShared)) :
  New_loop n (length filled) (filled ++ replicate n None) =
  filled ++ replicate n (Some empty_shard).
Proof.
  revert filled. induction n as [|n IH]; intros filled; [reflexivity|].
  cbn [New_loop replicate].
  rewrite insert_app_r_alt by lia. rewrite Nat.sub_diag. cbn [list_insert].
  pose proof (IH (filled ++ [Some empty_shard])) as IH'.
  rewrite length_app in IH'. cbn [length] in IH'.
  rewrite Nat.add_1_r in IH'.
  rewrite <- !List.app_assoc in IH'. exact IH'.
Qed.

Lemma New_run (shards : Z) :
  0 <= shards <= max_slots ->
  New shards = Done (table shards).
Proof.
  intros Hs. unfold New, make_slots.
  destruct (shards <? 0) eqn:Hneg; [apply Z.ltb_lt in Hneg; lia|].
  destruct (max_slots <? shards) eqn:Hmax; [apply Z.ltb_lt in Hmax; lia|].
  cbn [orb].
  unfold table. do 2 f_equal. exact (New_loop_fills (Z.to_nat shards) []).
Qed.

Lemma wf_table (shards : Z) :
  0 < shards < 2 ^ 63 -> wf (table shards).
Proof.
  intros Hs. unfold wf, table. cbn [Shards HashMap]. rewrite length_replicate.
  repeat split; try lia.
  intros j Hj. exists empty_shard. split; [|reflexivity].
  now apply lookup_replicate_2.
Qed.

Lemma stored_table (shards : Z) (key : string) :
  stored (table shards) key = None.
Proof.
  unfold stored, entry, shard_items, table. cbn [HashMap].
  destruct (replicate _ _ !! _) as [[sh|]|] eqn:Hl; try apply lookup_empty.
  apply lookup_replicate in Hl as [Hl _].
  assert (sh = empty_shard) as -> by congruence.
  apply lookup_empty.
Qed.

(** ** Auxiliary facts for the properties below *)

Lemma iface_eq_true (a b : Value) : iface_eq a b = Done true -> a = b.
Proof.
  destruct a, b; cbn; intros H; try discriminate H; try reflexivity;
    injection H as H.
  - now apply Bool.eqb_prop in H as ->.
  - now apply Z.eqb_eq in H as ->.
  - now apply String.eqb_eq in H as ->.
  - now apply String.eqb_eq in H as ->.
Qed.

Lemma iface_eq_same (a : Value) (b : bool) : iface_eq a a = Done b -> b = true.
Proof.
  destruct a; cbn; intros H; try discriminate H; injection H as <-.
  - reflexivity.
  - now destruct b0.
  - apply Z.eqb_refl.
  - apply String.eqb_refl.
  - apply String.eqb_refl.
Qed.

Lemma located_lookup m key :
  wf m ->
  HashMap m !! shard_index m key =
  Some (Some {| items := shard_items m (shard_index m key); mu := unlocked |}).
Proof. intros Hwf. now destruct (wf_located m key Hwf). Qed.

Lemma with_items_delete_absent m key :
  wf m -> stored m key = None ->
  with_items m (shard_index m key)
    (delete key (shard_items m (shard_index m key))) = m.
Proof.
  intros Hwf Habs. unfold stored, entry in Habs.
  rewrite delete_id by exact Habs.
  apply with_items_same, located_lookup, Hwf.
Qed.

Lemma wf_with_items_key m key its :
  wf m -> wf (with_items m (shard_index m key) its).
Proof. intros Hwf. apply wf_with_items; [assumption | now apply shard_index_lt]. Qed.

Lemma Pop_absent {E : Type} m (e : E) key :
  wf m -> stored m key = None -> Pop key (m, e) = (Done (VNil, false), (m, e)).
Proof.
  intros Hwf Habs. rewrite Pop_run by assumption. rewrite Habs.
  now rewrite with_items_delete_absent.
Qed.

(** An operation that completes leaves a well-formed table. *)
Lemma perform_wf {E : Type} (c : Call E) m (e : E) r s' :
  wf m -> perform c (m, e) = (Done r, s') -> wf (fst s').
Proof.
  intros Hwf. destruct c; cbn [perform]; unfold bind.
  - rewrite Set_run by assumption. intros [= _ <-]. now apply wf_with_items_key.
  - rewrite Get_run by assumption. intros [= _ <-]. assumption.
  - rewrite Has_run by assumption. intros [= _ <-]. assumption.
  - rewrite Remove_run by assumption. intros [= _ <-]. now apply wf_with_items_key.
  - rewrite Pop_run by assumption. intros [= _ <-]. now apply wf_with_items_key.
  - rewrite SetIfAbsent_run by assumption.
    destruct (stored m key); intros [= _ <-];
      [assumption | now apply wf_with_items_key].
  - rewrite SetIfPresent_run by assumption. cbv zeta.
    destruct (stored m key) as [val|]; [|intros [= _ <-]; assumption].
    destruct (iface_eq val oldValue) as [[|]|p|]; intros [= _ <-];
      [now apply wf_with_items_key | assumption].
  - rewrite AddIfPresent_run by assumption. cbv zeta.
    destruct (stored m key) as [val|];
      [|intros [= _ <-]; now apply wf_with_items_key].
    destruct (assert_ifaces val) as [tmp|p|]; intros [= _ <-].
    now apply wf_with_items_key.
  - rewrite Upsert_run by assumption. cbv zeta.
    destruct (fst (cb _ _ _ _)) as [res|p|]; intros [= _ <-].
    now apply wf_with_items_key.
  - rewrite Update_run by assumption.
    destruct (stored m key); intros [= _ <-];
      [now apply wf_with_items_key | assumption].
  - rewrite UpdateCb_run by assumption. cbv zeta.
    destruct (stored m key) as [cur|]; [|intros [= _ <-]; assumption].
    destruct (fst (cb _ _ _ _)) as [res|p|]; intros [= _ <-].
    now apply wf_with_items_key.
Qed.

(** On a table without shards the shard selection divides by zero. *)
Lemma GetShard_no_shards {E : Type} (key : string) (e : E) :
  GetShard key (table 0, e) = (Panicked DivideByZero, (table 0, e)).
Proof. reflexivity. Qed.

(** * Properties *)

(** ** Hasher *)

(** C7: for every key, [fnv32] starts from 2166136261 and, for each byte
    of the key in order, multiplies by 16777619 modulo 2^32 and then XORs
    the byte in; the result of the last step is returned (and is a 32-bit
    value). *)
Theorem fnv32_as_described (key : string) :
  Hasher.fnv32 key = Hasher.fnv32_described key /\
  0 <= Hasher.fnv32 key < 2 ^ 32.
Proof.
  split; [|apply fnv32_range].
  unfold Hasher.fnv32, Hasher.fnv32_described.
  exact (fnv32_loop_fold EmptyString key Hasher.offset32).
Qed.

(** C8, as stated, fails: on "ABC" the bundled hash differs from the
    FNV-1a value of "ABC". *)
Lemma fnv32_ABC_differs_from_fnv1a :
  Hasher.fnv32 "ABC" = 1665970155 /\
  Hasher.fnv1a_32_reference (Hasher.bytes_of "ABC") = 1552166763 /\
  Hasher.fnv32 "ABC" <> Hasher.fnv1a_32_reference (Hasher.bytes_of "ABC").
Proof. repeat split. intros H. vm_compute in H. discriminate H. Qed.

(** C8, amended: the bundled hash is the FNV-1 variant (multiply, then
    XOR) on every key, and on "ABC" it yields the FNV-1 reference value
    1665970155. *)
Theorem fnv32_is_fnv1 :
  (forall key, Hasher.fnv32 key = Hasher.fnv1_32_reference (Hasher.bytes_of key)) /\
  Hasher.fnv32 "ABC" = Hasher.fnv1_32_reference (Hasher.bytes_of "ABC") /\
  Hasher.fnv32 "ABC" = 1665970155.
Proof.
  split; [|split; reflexivity].
  intros key. unfold Hasher.fnv32, Hasher.fnv1_32_reference.
  exact (fnv32_loop_fold EmptyString key Hasher.offset32).
Qed.

(** ** Construction *)

(** C9, as stated, fails: a shard count of zero is accepted, [New]
    returns a table (with no shards) and reports nothing. *)
Lemma New_accepts_zero :
  New 0 = Done {| Shards := 0; HashMap := [] |}.
Proof. reflexivity. Qed.

(** C9, amended: a negative shard count makes [New] panic in [make];
    a shard count of zero yields a table without shards, on which every
    single-key operation panics when the shard is selected. *)
Theorem New_negative_panics_zero_unusable :
  (forall shards, shards < 0 -> New shards = Panicked MakeSliceLen) /\
  New 0 = Done (table 0) /\
  HashMap (table 0) = [] /\
  (forall (E : Type) (c : Call E) (e : E),
      perform c (table 0, e) = (Panicked DivideByZero, (table 0, e))).
Proof.
  repeat split.
  - intros shards Hneg. unfold New, make_slots.
    now apply Z.ltb_lt in Hneg as ->.
  - intros E c e. destruct c; reflexivity.
Qed.

Lemma New_negative_panics_zero_unusable_witness :
  -1 < 0 /\ New (-1) = Panicked MakeSliceLen.
Proof.
  split; [lia|].
  apply (proj1 New_negative_panics_zero_unusable (-1)). lia.
Defined.

(** ** Single-key operations *)

Section KeyOperations.

Context {E : Type}.
Implicit Types (m : ConcurrentHashMap) (e : E) (k : string).
Implicit Types (v : Value) (cb : UpsertCb E).

(** C1: on a table in its normal state, [Upsert k v cb] invokes [cb]
    exactly once, on (present, current value or nil, v), also when [k]
    is absent; when the callback returns [res], [res] is stored under
    [k] and returned.  Hence two [Upsert]s with the appending callback
    on an absent key leave the two animals stored in call order. *)
Theorem Upsert_invokes_once_stores_and_returns m e k v cb :
  wf m ->
  let cur := fst (comma_ok (stored m k)) in
  let present := snd (comma_ok (stored m k)) in
  let o := cb present cur v e in
  (forall log,
      snd (snd (Upsert k v (spy cb) (m, (e, log)))) =
      (snd o, log ++ [(present, cur, v)])) /\
  (stored m k = None -> present = false /\ cur = VNil) /\
  (forall res, fst o = Done res ->
      exists m',
        Upsert k v cb (m, e) = (Done res, (m', snd o)) /\
        wf m' /\
        stored m' k = Some res /\
        Get k (m', snd o) = (Done (res, true), (m', snd o))) /\
  (forall a b, stored m k = None ->
      exists m1 m2,
        Upsert k (VAnimal a) appendCombiner (m, e) = (Done (VAnimals [a]), (m1, e)) /\
        Upsert k (VAnimal b) appendCombiner (m1, e) = (Done (VAnimals [a; b]), (m2, e)) /\
        stored m2 k = Some (VAnimals [a; b])).
Proof.
  intros Hwf cur present o. subst cur present o.
  split; [|split; [|split]].
  - intros log. rewrite Upsert_run by assumption. cbv zeta.
    unfold spy at 1 2 3 4. cbn [fst snd].
    now destruct (fst (cb _ _ v e)).
  - intros Habs. rewrite Habs. split; reflexivity.
  - intros res Hres. eexists. rewrite Upsert_run by assumption. cbv zeta.
    rewrite Hres. split; [reflexivity|].
    pose proof (wf_with_items_key m k (<[k := res]> (shard_items m (shard_index m k))) Hwf) as Hwf'.
    split; [exact Hwf'|].
    assert (Hst : stored (with_items m (shard_index m k)
                     (<[k := res]> (shard_items m (shard_index m k)))) k = Some res).
    { rewrite stored_with_items by assumption. apply lookup_insert_eq. }
    split; [exact Hst|].
    rewrite Get_run by assumption. now rewrite Hst.
  - intros a b Habs. do 2 eexists.
    rewrite Upsert_run by assumption. cbv zeta. rewrite Habs.
    cbn [comma_ok fst snd appendCombiner negb].
    split; [reflexivity|].
    set (m1 := with_items _ _ _).
    assert (Hwf1 : wf m1) by now apply wf_with_items_key.
    assert (Hst1 : stored m1 k = Some (VAnimals [a])).
    { unfold m1. rewrite stored_with_items by assumption. apply lookup_insert_eq. }
    rewrite Upsert_run by assumption. cbv zeta. rewrite Hst1.
    cbn [comma_ok fst snd appendCombiner negb app].
    split; [reflexivity|].
    rewrite stored_with_items by assumption. apply lookup_insert_eq.
Qed.

(** C2, amended: when the stored value, if any, can be compared with
    [old] (they are not two values of one slice type), [SetIfPresent]
    completes; it returns true exactly when [k] is present with a value
    equal to [old], and then [new] is stored; when it returns false the
    table is unchanged. *)
Theorem SetIfPresent_compare_and_swap m e k (new old : Value) :
  wf m ->
  (forall cur, stored m k = Some cur -> exists b, iface_eq cur old = Done b) ->
  exists b m',
    SetIfPresent k new old (m, e) = (Done b, (m', e)) /\
    (b = true <-> stored m k = Some old) /\
    (b = true -> stored m' k = Some new /\ wf m') /\
    (b = false -> m' = m).
Proof.
  intros Hwf Hcmp. rewrite SetIfPresent_run by assumption. cbv zeta.
  destruct (stored m k) as [cur|] eqn:Hst.
  - destruct (Hcmp cur eq_refl) as [b Hb]. rewrite Hb. destruct b.
    + do 2 eexists. split; [reflexivity|]. split; [|split].
      * apply iface_eq_true in Hb. now subst.
      * intros _. split; [|now apply wf_with_items_key].
        rewrite stored_with_items by assumption. apply lookup_insert_eq.
      * discriminate.
    + do 2 eexists. split; [reflexivity|]. split; [|split].
      * split; [discriminate|]. intros [= ->]. now apply iface_eq_same in Hb.
      * discriminate.
      * reflexivity.
  - do 2 eexists. split; [reflexivity|]. split; [|split].
    + split; discriminate.
    + discriminate.
    + reflexivity.
Qed.

(** C3: when [k] holds a [[]interface{}] sequence, [AddIfPresent k v]
    stores that sequence extended by [v]; when [k] is absent it stores
    [v] itself, not a one-element sequence. *)
Theorem AddIfPresent_appends_or_stores m e k v :
  wf m ->
  (forall xs, stored m k = Some (VIfaces xs) ->
      exists m',
        AddIfPresent k v (m, e) = (Done true, (m', e)) /\
        wf m' /\ stored m' k = Some (VIfaces (xs ++ [v]))) /\
  (stored m k = None ->
      exists m',
        AddIfPresent k v (m, e) = (Done false, (m', e)) /\
        wf m' /\ stored m' k = Some v).
Proof.
  intros Hwf. split.
  - intros xs Hst. eexists. rewrite AddIfPresent_run by assumption. cbv zeta.
    rewrite Hst. cbn [assert_ifaces]. split; [reflexivity|].
    split; [now apply wf_with_items_key|].
    rewrite stored_with_items by assumption. apply lookup_insert_eq.
  - intros Hst. eexists. rewrite AddIfPresent_run by assumption. cbv zeta.
    rewrite Hst. split; [reflexivity|].
    split; [now apply wf_with_items_key|].
    rewrite stored_with_items by assumption. apply lookup_insert_eq.
Qed.

(** C4: [SetIfAbsent k v1] on a table where [k] is absent returns true
    and stores [v1]; a following [SetIfAbsent k v2] returns false and
    changes nothing, so [v1] stays.  On a present key it returns false
    and changes nothing. *)
Theorem SetIfAbsent_inserts_only_when_missing m e k (v1 v2 : Value) :
  wf m ->
  (stored m k = None ->
      exists m1,
        SetIfAbsent k v1 (m, e) = (Done true, (m1, e)) /\
        wf m1 /\ stored m1 k = Some v1 /\
        SetIfAbsent k v2 (m1, e) = (Done false, (m1, e))) /\
  (forall v0, stored m k = Some v0 ->
      SetIfAbsent k v1 (m, e) = (Done false, (m, e))).
Proof.
  intros Hwf. split.
  - intros Hst. eexists. rewrite SetIfAbsent_run by assumption. rewrite Hst.
    split; [reflexivity|].
    set (m1 := with_items _ _ _).
    assert (Hwf1 : wf m1) by now apply wf_with_items_key.
    assert (Hst1 : stored m1 k = Some v1).
    { unfold m1. rewrite stored_with_items by assumption. apply lookup_insert_eq. }
    split; [exact Hwf1|]. split; [exact Hst1|].
    rewrite SetIfAbsent_run by assumption. now rewrite Hst1.
  - intros v0 Hst. rewrite SetIfAbsent_run by assumption. now rewrite Hst.
Qed.

(** C5: [Pop k] on a present key returns the stored value with
    present = true and removes the key: a following [Get k] and a second
    [Pop k] both report absent.  On an absent key it reports absent and
    leaves the whole table as it was. *)
Theorem Pop_reads_and_removes m e k :
  wf m ->
  (forall v, stored m k = Some v ->
      exists m',
        Pop k (m, e) = (Done (v, true), (m', e)) /\
        wf m' /\
        Get k (m', e) = (Done (VNil, false), (m', e)) /\
        Pop k (m', e) = (Done (VNil, false), (m', e))) /\
  (stored m k = None -> Pop k (m, e) = (Done (VNil, false), (m, e))).
Proof.
  intros Hwf. split; [|now apply Pop_absent].
  intros v Hst. eexists. rewrite Pop_run by assumption. rewrite Hst.
  split; [reflexivity|].
  set (m' := with_items _ _ _).
  assert (Hwf' : wf m') by now apply wf_with_items_key.
  assert (Hst' : stored m' k = None).
  { unfold m'. rewrite stored_with_items by assumption. apply lookup_delete_eq. }
  split; [exact Hwf'|]. split.
  - rewrite Get_run by assumption. now rewrite Hst'.
  - now apply Pop_absent.
Qed.

(** C6: [Update k v] replaces the value and returns true when [k] is
    present; [UpdateCb k v cb] then invokes [cb] once, on (true, current
    value, v), stores its result and returns true.  When [k] is absent
    both return false, the callback is not invoked, the table is
    unchanged and [k] is still absent. *)
Theorem Update_and_UpdateCb_act_only_when_present m e k v cb :
  wf m ->
  (forall cur, stored m k = Some cur ->
      (exists m',
          Update k v (m, e) = (Done true, (m', e)) /\
          wf m' /\ stored m' k = Some v) /\
      (forall log,
          snd (snd (UpdateCb k v (spy cb) (m, (e, log)))) =
          (snd (cb true cur v e), log ++ [(true, cur, v)])) /\
      (forall res, fst (cb true cur v e) = Done res ->
          exists m',
            UpdateCb k v cb (m, e) = (Done true, (m', snd (cb true cur v e))) /\
            wf m' /\ stored m' k = Some res)) /\
  (stored m k = None ->
      Update k v (m, e) = (Done false, (m, e)) /\
      UpdateCb k v cb (m, e) = (Done false, (m, e)) /\
      (forall log,
          UpdateCb k v (spy cb) (m, (e, log)) = (Done false, (m, (e, log)))) /\
      Get k (m, e) = (Done (VNil, false), (m, e))).
Proof.
  intros Hwf. split.
  - intros cur Hst. split; [|split].
    + eexists. rewrite Update_run by assumption. rewrite Hst.
      split; [reflexivity|]. split; [now apply wf_with_items_key|].
      rewrite stored_with_items by assumption. apply lookup_insert_eq.
    + intros log. rewrite UpdateCb_run by assumption. cbv zeta. rewrite Hst.
      unfold spy at 1 2 3 4. cbn [fst snd].
      now destruct (fst (cb true cur v e)).
    + intros res Hres. eexists. rewrite UpdateCb_run by assumption. cbv zeta.
      rewrite Hst, Hres. split; [reflexivity|].
      split; [now apply wf_with_items_key|].
      rewrite stored_with_items by assumption. apply lookup_insert_eq.
  - intros Hst. split; [|split; [|split]].
    + rewrite Update_run by assumption. now rewrite Hst.
    + rewrite UpdateCb_run by assumption. cbv zeta. now rewrite Hst.
    + intros log. rewrite UpdateCb_run by assumption. cbv zeta. now rewrite Hst.
    + rewrite Get_run by assumption. now rewrite Hst.
Qed.

End KeyOperations.

(** ** Concrete runs *)

Lemma wf_table_64 : wf (table 64).
Proof. apply wf_table. lia. Qed.

Lemma wf_table_with (key : string) (value : Value) : wf (table_with key value).
Proof. apply wf_with_items_key, wf_table_64. Qed.

Lemma stored_table_with (key : string) (value : Value) :
  stored (table_with key value) key = Some value.
Proof.
  unfold table_with. rewrite stored_with_items by apply wf_table_64.
  apply lookup_singleton_eq.
Qed.

Lemma Set_on_new_table (key : string) (value : Value) :
  New 64 = Done (table 64) /\
  Set_ key value (table 64, tt) = (Done tt, (table_with key value, tt)).
Proof.
  split; [reflexivity|]. rewrite Set_run by apply wf_table_64.
  unfold table_with. do 3 f_equal.
  unfold shard_items. destruct (wf_located (table 64) key wf_table_64) as [_ _ Hlt _].
  unfold table in *. cbn [HashMap] in *. rewrite length_replicate in Hlt.
  now rewrite lookup_replicate_2.
Qed.

Lemma Upsert_invokes_once_stores_and_returns_witness :
  wf (table 64) /\
  exists m1 m2,
    Upsert "m" (VAnimal "dolphin") appendCombiner (table 64, tt) =
      (Done (VAnimals ["dolphin"]), (m1, tt)) /\
    Upsert "m" (VAnimal "whale") appendCombiner (m1, tt) =
      (Done (VAnimals ["dolphin"; "whale"]), (m2, tt)) /\
    stored m2 "m" = Some (VAnimals ["dolphin"; "whale"]).
Proof.
  split; [exact wf_table_64|].
  pose proof (Upsert_invokes_once_stores_and_returns
                (table 64) tt "m" (VAnimal "dolphin") appendCombiner wf_table_64) as H.
  cbv zeta in H. destruct H as (_ & _ & _ & H).
  exact (H "dolphin" "whale" (stored_table 64 "m")).
Defined.

(** C2, as stated, fails: the key is present and its value is the very
    sequence passed as [old], yet the call neither returns true nor
    stores [new]; the comparison of two slices panics. *)
Lemma SetIfPresent_equal_slices_panic :
  stored (table_with "k" (VIfaces [])) "k" = Some (VIfaces []) /\
  fst (SetIfPresent "k" (VInt 1) (VIfaces []) (table_with "k" (VIfaces []), tt)) =
    Panicked Uncomparable /\
  fst (SetIfPresent "k" (VInt 1) (VIfaces []) (table_with "k" (VIfaces []), tt)) <>
    Done true /\
  fst (SetIfPresent "k" (VInt 1) (VIfaces []) (table_with "k" (VIfaces []), tt)) <>
    Done false.
Proof.
  pose proof (stored_table_with "k" (VIfaces [])) as Hst.
  split; [exact Hst|].
  rewrite SetIfPresent_run by apply wf_table_with. cbv zeta. rewrite Hst.
  cbn [iface_eq fst]. repeat split; discriminate.
Qed.

Lemma SetIfPresent_compare_and_swap_witness :
  wf (table_with "k" (VInt 1)) /\
  exists b m',
    SetIfPresent "k" (VInt 2) (VInt 1) (table_with "k" (VInt 1), tt) =
      (Done b, (m', tt)) /\
    (b = true <-> stored (table_with "k" (VInt 1)) "k" = Some (VInt 1)) /\
    (b = true -> stored m' "k" = Some (VInt 2) /\ wf m') /\
    (b = false -> m' = table_with "k" (VInt 1)).
Proof.
  split; [apply wf_table_with|].
  apply (SetIfPresent_compare_and_swap (table_with "k" (VInt 1)) tt "k"
           (VInt 2) (VInt 1) (wf_table_with "k" (VInt 1))).
  intros cur Hcur. rewrite stored_table_with in Hcur.
  injection Hcur as <-. exists true. reflexivity.
Defined.

Lemma AddIfPresent_appends_or_stores_witness :
  wf (table_with "k" (VIfaces [VInt 1])) /\
  exists m',
    AddIfPresent "k" (VInt 2) (table_with "k" (VIfaces [VInt 1]), tt) =
      (Done true, (m', tt)) /\
    wf m' /\ stored m' "k" = Some (VIfaces [VInt 1; VInt 2]).
Proof.
  split; [apply wf_table_with|].
  apply (proj1 (AddIfPresent_appends_or_stores
                  (table_with "k" (VIfaces [VInt 1])) tt "k" (VInt 2)
                  (wf_table_with "k" (VIfaces [VInt 1])))
               [VInt 1]).
  apply stored_table_with.
Defined.

Lemma SetIfAbsent_inserts_only_when_missing_witness :
  wf (table 64) /\ stored (table 64) "k" = None /\
  exists m1,
    SetIfAbsent "k" (VInt 1) (table 64, tt) = (Done true, (m1, tt)) /\
    wf m1 /\ stored m1 "k" = Some (VInt 1) /\
    SetIfAbsent "k" (VInt 2) (m1, tt) = (Done false, (m1, tt)).
Proof.
  split; [exact wf_table_64|]. split; [apply stored_table|].
  apply (proj1 (SetIfAbsent_inserts_only_when_missing
                  (table 64) tt "k" (VInt 1) (VInt 2) wf_table_64)).
  apply stored_table.
Defined.

Lemma Pop_reads_and_removes_witness :
  wf (table_with "monkey" (VAnimal "monkey")) /\
  exists m',
    Pop "monkey" (table_with "monkey" (VAnimal "monkey"), tt) =
      (Done (VAnimal "monkey", true), (m', tt)) /\
    wf m' /\
    Get "monkey" (m', tt) = (Done (VNil, false), (m', tt)) /\
    Pop "monkey" (m', tt) = (Done (VNil, false), (m', tt)).
Proof.
  split; [apply wf_table_with|].
  apply (proj1 (Pop_reads_and_removes
                  (table_with "monkey" (VAnimal "monkey")) tt "monkey"
                  (wf_table_with "monkey" (VAnimal "monkey")))).
  apply stored_table_with.
Defined.

Lemma Update_and_UpdateCb_act_only_when_present_witness :
  wf (table 64) /\ stored (table 64) "predator" = None /\
  Update "predator" (VAnimals ["tiger"]) (table 64, tt) =
    (Done false, (table 64, tt)) /\
  UpdateCb "predator" (VAnimals ["tiger"]) appendCombiner (table 64, tt) =
    (Done false, (table 64, tt)) /\
  (forall log,
      UpdateCb "predator" (VAnimals ["tiger"]) (spy appendCombiner)
        (table 64, (tt, log)) = (Done false, (table 64, (tt, log)))) /\
  Get "predator" (table 64, tt) = (Done (VNil, false), (table 64, tt)).
Proof.
  split; [exact wf_table_64|]. split; [apply stored_table|].
  apply (proj2 (Update_and_UpdateCb_act_only_when_present
                  (table 64) tt "predator" (VAnimals ["tiger"]) appendCombiner
                  wf_table_64)).
  apply stored_table.
Defined.

(** * Further properties of the package *)

(** ** Tables with one slot replaced *)

Lemma shard_items_with_shard m i its l j :
  (i < length (HashMap m))%nat ->
  shard_items (with_shard m i its l) j =
  if decide (i = j) then its else shard_items m j.
Proof.
  intros Hlt. unfold shard_items, with_shard. cbn [HashMap].
  destruct (decide (i = j)) as [->|Hne].
  - now rewrite list_lookup_insert_eq.
  - now rewrite list_lookup_insert_ne.
Qed.

Lemma entry_with_shard m i its l j k :
  (i < length (HashMap m))%nat ->
  entry (with_shard m i its l) j k =
  if decide (i = j) then its !! k else entry m j k.
Proof.
  intros Hlt. unfold entry. rewrite shard_items_with_shard by assumption.
  now destruct (decide (i = j)).
Qed.

Lemma stored_with_shard m key its l :
  wf m -> stored (with_shard m (shard_index m key) its l) key = its !! key.
Proof.
  intros Hwf. unfold stored.
  change (shard_index (with_shard m (shard_index m key) its l) key)
    with (shard_index m key).
  rewrite entry_with_shard by now apply shard_index_lt.
  now rewrite decide_True.
Qed.

Lemma with_items_twice m i its1 its2 :
  with_items (with_items m i its1) i its2 = with_items m i its2.
Proof. unfold with_items. cbn [Shards HashMap]. now rewrite list_insert_insert_eq. Qed.

Lemma shard_items_with_items_key m key its :
  wf m ->
  shard_items (with_items m (shard_index m key) its) (shard_index m key) = its.
Proof.
  intros Hwf. rewrite shard_items_with_items by now apply shard_index_lt.
  now rewrite decide_True.
Qed.

(** On a shard whose write lock is held, every operation routed to it
    waits for the lock. *)
Lemma perform_on_locked {E : Type} (c : Call E) m (e : E) its :
  wf m ->
  perform c (with_locked m (shard_index m (call_key c)) its, e) =
  (Blocked, (with_locked m (shard_index m (call_key c)) its, e)).
Proof.
  intros Hwf.
  destruct (wf_located m (call_key c) Hwf) as [Hd Hlt Hlt' _].
  assert (HG : GetShard (call_key c)
                 (with_locked m (shard_index m (call_key c)) its, e) =
               (Done (shard_index m (call_key c)),
                (with_locked m (shard_index m (call_key c)) its, e))).
  { unfold GetShard. cbv zeta.
    change (shard_index (with_locked m (shard_index m (call_key c)) its, e).1
              (call_key c)) with (shard_index m (call_key c)).
    unfold with_locked. cbn [fst Shards HashMap].
    rewrite Hd, length_insert. now rewrite Hlt. }
  assert (HL : Lock (shard_index m (call_key c))
                 (with_locked m (shard_index m (call_key c)) its, e) =
               (Blocked, (with_locked m (shard_index m (call_key c)) its, e))).
  { unfold Lock, bind, deref, with_locked. cbn [fst HashMap].
    now rewrite list_lookup_insert_eq. }
  assert (HR : RLock (shard_index m (call_key c))
                 (with_locked m (shard_index m (call_key c)) its, e) =
               (Blocked, (with_locked m (shard_index m (call_key c)) its, e))).
  { unfold RLock, bind, deref, with_locked. cbn [fst HashMap].
    now rewrite list_lookup_insert_eq. }
  destruct c; cbn [call_key perform] in *;
    unfold Set_, Get, Has, Remove, Pop, SetIfAbsent, SetIfPresent,
      AddIfPresent, Upsert, Update, UpdateCb, bind;
    rewrite HG; first [now rewrite HL | now rewrite HR].
Qed.

(** ** Set, Get, Has, Remove, Pop *)

Section PlainOperations.

Context {E : Type}.
Implicit Types (m : ConcurrentHashMap) (e : E) (k : string) (v : Value).

(** X1: on a table in its normal state, [Set k v] completes, and
    afterwards [Get k] returns [v] with present = true and [Has k]
    returns true. *)
Theorem Set_then_Get_and_Has m e k v :
  wf m ->
  exists m',
    Set_ k v (m, e) = (Done tt, (m', e)) /\
    wf m' /\
    Get k (m', e) = (Done (v, true), (m', e)) /\
    Has k (m', e) = (Done true, (m', e)).
Proof.
  intros Hwf. eexists. rewrite Set_run by assumption.
  split; [reflexivity|].
  set (m' := with_items _ _ _).
  assert (Hwf' : wf m') by now apply wf_with_items_key.
  assert (Hst : stored m' k = Some v).
  { unfold m'. rewrite stored_with_items by assumption. apply lookup_insert_eq. }
  split; [exact Hwf'|]. split.
  - rewrite Get_run by assumption. now rewrite Hst.
  - rewrite Has_run by assumption. now rewrite Hst.
Qed.

(** X2: the last [Set] on a key wins: [Set k v1] followed by [Set k v2]
    leaves exactly the table that [Set k v2] alone leaves. *)
Theorem Set_twice_is_last_Set m e k (v1 v2 : Value) :
  wf m ->
  bind (Set_ k v1) (fun _ => Set_ k v2) (m, e) = Set_ k v2 (m, e).
Proof.
  intros Hwf. unfold bind. rewrite (Set_run m e k v1) by assumption.
  rewrite !Set_run by (assumption || now apply wf_with_items_key).
  rewrite shard_index_with_items, shard_items_with_items_key by assumption.
  now rewrite with_items_twice, insert_insert_eq.
Qed.

(** X3: [Remove k] completes; afterwards [Get k] and [Has k] report
    absent; removing an absent key leaves the table as it was, so a
    second [Remove k] changes nothing. *)
Theorem Remove_then_absent m e k :
  wf m ->
  exists m',
    Remove k (m, e) = (Done tt, (m', e)) /\
    wf m' /\
    Get k (m', e) = (Done (VNil, false), (m', e)) /\
    Has k (m', e) = (Done false, (m', e)) /\
    (stored m k = None -> m' = m) /\
    Remove k (m', e) = (Done tt, (m', e)).
Proof.
  intros Hwf. eexists. rewrite Remove_run by assumption.
  split; [reflexivity|].
  set (m' := with_items _ _ _).
  assert (Hwf' : wf m') by now apply wf_with_items_key.
  assert (Hst : stored m' k = None).
  { unfold m'. rewrite stored_with_items by assumption. apply lookup_delete_eq. }
  split; [exact Hwf'|]. split; [|split; [|split]].
  - rewrite Get_run by assumption. now rewrite Hst.
  - rewrite Has_run by assumption. now rewrite Hst.
  - intros Habs. now apply with_items_delete_absent.
  - rewrite Remove_run by assumption. now rewrite with_items_delete_absent.
Qed.

(** X4: [Get] and [Has] only read: they complete and leave the table,
    locks included, exactly as it was; [Has k] is the presence flag of
    [Get k], and the value of an absent key is nil. *)
Theorem Get_and_Has_read_only m e k :
  wf m ->
  exists value ok,
    Get k (m, e) = (Done (value, ok), (m, e)) /\
    Has k (m, e) = (Done ok, (m, e)) /\
    (ok = true <-> stored m k = Some value) /\
    (ok = false <-> stored m k = None) /\
    (ok = false -> value = VNil).
Proof.
  intros Hwf. rewrite Get_run, Has_run by assumption.
  destruct (stored m k) as [x|]; cbn [comma_ok snd].
  - exists x, true. repeat split; intros; congruence.
  - exists VNil, false. repeat split; intros; congruence.
Qed.

(** X5: [Pop k] is [Get k] followed by [Remove k]: same result, same
    final table. *)
Theorem Pop_is_Get_then_Remove m e k :
  wf m ->
  Pop k (m, e) =
  bind (Get k) (fun r => bind (Remove k) (fun _ => ret r)) (m, e).
Proof.
  intros Hwf. unfold bind. rewrite Pop_run, Get_run by assumption.
  now rewrite Remove_run by assumption.
Qed.

(** X6: with the callback that returns the new value, [Upsert k v]
    returns [v] and leaves the table [Set k v] leaves, and [UpdateCb k v]
    behaves exactly as [Update k v]. *)
Theorem replacing_callback_gives_Set_and_Update m e k v :
  wf m ->
  fst (Upsert k v replaceCb (m, e)) = Done v /\
  snd (Upsert k v replaceCb (m, e)) = snd (Set_ k v (m, e)) /\
  UpdateCb k v replaceCb (m, e) = Update k v (m, e).
Proof.
  intros Hwf. rewrite Upsert_run, Set_run, UpdateCb_run, Update_run by assumption.
  cbv zeta. cbn [replaceCb fst snd]. repeat split.
Qed.

(** X7: the operations that run no callback, comparison or type
    assertion ([Set], [Get], [Has], [Remove], [Pop], [SetIfAbsent],
    [Update]) never panic and never wait on a table in its normal
    state: they complete and leave the table in its normal state. *)
Theorem plain_operations_complete (c : Call E) m e :
  runs_checks c = false ->
  wf m ->
  exists r m', perform c (m, e) = (Done r, (m', e)) /\ wf m'.
Proof.
  intros Hc Hwf. destruct c; try discriminate Hc; cbn [perform]; unfold bind.
  - rewrite Set_run by assumption. do 2 eexists. split; [reflexivity|].
    now apply wf_with_items_key.
  - rewrite Get_run by assumption. do 2 eexists. split; [reflexivity|assumption].
  - rewrite Has_run by assumption. do 2 eexists. split; [reflexivity|assumption].
  - rewrite Remove_run by assumption. do 2 eexists. split; [reflexivity|].
    now apply wf_with_items_key.
  - rewrite Pop_run by assumption. do 2 eexists. split; [reflexivity|].
    now apply wf_with_items_key.
  - rewrite SetIfAbsent_run by assumption.
    destruct (stored m key); do 2 eexists; (split; [reflexivity|]);
      [assumption | now apply wf_with_items_key].
  - rewrite Update_run by assumption.
    destruct (stored m key); do 2 eexists; (split; [reflexivity|]);
      [now apply wf_with_items_key | assumption].
Qed.

(** X8: when the callback of [Upsert] panics, [Upsert] panics with it,
    the value stored under [k] is what it was, and the shard's lock is
    never released: from then on every single-key operation on a key of
    that shard waits forever. *)
Theorem Upsert_panicking_callback_keeps_lock m e k v (cb : UpsertCb E) (p : PanicKind) :
  wf m ->
  fst (cb (snd (comma_ok (stored m k))) (fst (comma_ok (stored m k))) v e) = Panicked p ->
  let s' := snd (Upsert k v cb (m, e)) in
  fst (Upsert k v cb (m, e)) = Panicked p /\
  stored (fst s') k = stored m k /\
  (forall (c : Call E) (e2 : E),
      shard_index m (call_key c) = shard_index m k ->
      perform c (fst s', e2) = (Blocked, (fst s', e2))).
Proof.
  intros Hwf Hp. rewrite Upsert_run by assumption. cbv zeta. rewrite Hp.
  cbn [fst snd]. split; [reflexivity|]. split.
  - apply (stored_with_shard m k _ _ Hwf).
  - intros c e2 Hc. rewrite <- Hc. now apply perform_on_locked.
Qed.

(** X9: when [k] holds a value that is not a [[]interface{}],
    [AddIfPresent k v] panics at the type assertion; the stored value is
    what it was and the shard's lock is never released, so a following
    [Get k] waits forever. *)
Theorem AddIfPresent_on_other_type_panics m e k v (val : Value) :
  wf m ->
  stored m k = Some val ->
  (forall xs, val <> VIfaces xs) ->
  let s' := snd (AddIfPresent k v (m, e)) in
  fst (AddIfPresent k v (m, e)) = Panicked BadAssertion /\
  stored (fst s') k = Some val /\
  fst (Get k s') = Blocked.
Proof.
  intros Hwf Hst Hty. rewrite AddIfPresent_run by assumption. cbv zeta.
  rewrite Hst.
  assert (Ha : assert_ifaces val = Panicked BadAssertion).
  { destruct val; try reflexivity. now destruct (Hty elems). }
  rewrite Ha. cbn [fst snd]. split; [reflexivity|]. split.
  - rewrite <- Hst. apply (stored_with_shard m k _ _ Hwf).
  - pose proof (perform_on_locked (CGet k) m e
                  (shard_items m (shard_index m k)) Hwf) as Hb.
    cbn [perform call_key] in Hb. unfold bind in Hb.
    destruct (Get k _) as [[r|q|] s2]; try discriminate Hb. reflexivity.
Qed.

End PlainOperations.

(** ** Count and IsEmpty *)

Lemma to_int_small (z : Z) : - 2 ^ 63 <= z < 2 ^ 63 -> to_int z = z.
Proof. intros Hz. unfold to_int. rewrite Z.mod_small by lia. lia. Qed.

Lemma sum_list_with_zero {A} (f : A -> nat) (l : list A) :
  sum_list_with f l = 0%nat <-> Forall (fun x => f x = 0%nat) l.
Proof.
  induction l as [|x l IH]; cbn [sum_list_with].
  - split; [constructor | reflexivity].
  - rewrite Forall_cons, <- IH. lia.
Qed.

Lemma total_with_shard m i its l sh :
  HashMap m !! i = Some (Some sh) ->
  (total (with_shard m i its l) + size (items sh) = total m + size its)%nat.
Proof.
  intros Hsh. pose proof (lookup_lt_Some _ _ _ Hsh) as Hlt.
  unfold total, with_shard. cbn [HashMap].
  rewrite insert_take_drop by assumption.
  rewrite <- (take_drop_middle _ _ _ Hsh) at 3.
  rewrite !sum_list_with_app. cbn [sum_list_with slot_size items]. lia.
Qed.

Lemma total_with_items_key m key its :
  wf m ->
  (total (with_items m (shard_index m key) its) +
   size (shard_items m (shard_index m key)) = total m + size its)%nat.
Proof.
  intros Hwf.
  exact (total_with_shard m _ its unlocked _ (located_lookup m key Hwf)).
Qed.

Lemma total_zero_iff m :
  total m = 0%nat <-> forall j k, entry m j k = None.
Proof.
  unfold total, entry, shard_items. rewrite sum_list_with_zero, Forall_lookup.
  split.
  - intros Hall j k. destruct (HashMap m !! j) as [[sh|]|] eqn:Hj;
      try apply lookup_empty.
    specialize (Hall j _ Hj). cbn [slot_size] in Hall.
    apply map_size_empty_inv in Hall. rewrite Hall. apply lookup_empty.
  - intros Hall j [sh|] Hj; [|reflexivity]. cbn [slot_size].
    apply map_size_empty_iff, map_empty. intros k.
    specialize (Hall j k). now rewrite Hj in Hall.
Qed.

Section Counting.

Context {E : Type}.
Implicit Types (m : ConcurrentHashMap) (e : E) (k : string) (v : Value).

Lemma slot_run m e i :
  (i < length (HashMap m))%nat -> slot i (m, e) = (Done i, (m, e)).
Proof.
  intros Hlt. unfold slot. cbn [fst].
  now apply Nat.ltb_lt in Hlt as ->.
Qed.

Lemma items_len_rlocked m e i its :
  (i < length (HashMap m))%nat ->
  items_len i (with_rlocked m i its, e) =
  (Done (Z.of_nat (size its)), (with_rlocked m i its, e)).
Proof.
  intros Hlt. unfold items_len, bind, deref, with_rlocked. cbn [fst HashMap].
  now rewrite list_lookup_insert_eq.
Qed.

Lemma Count_loop_run m e n i (count : Z) :
  wf m ->
  (i + n = length (HashMap m))%nat ->
  0 <= count ->
  count + Z.of_nat (sum_list_with slot_size (drop i (HashMap m))) < 2 ^ 63 ->
  Count_loop n i count (m, e) =
  (Done (count + Z.of_nat (sum_list_with slot_size (drop i (HashMap m)))), (m, e)).
Proof.
  intros Hwf. revert i count. induction n as [|n IH]; intros i count Hin Hc Hsum.
  - replace i with (length (HashMap m)) by lia. rewrite drop_all.
    cbn. unfold ret. do 2 f_equal. lia.
  - assert (Hlt : (i < length (HashMap m))%nat) by lia.
    destruct Hwf as (Hs & Hlen & Hall).
    destruct (Hall i Hlt) as ([its l] & Hsh & Hmu). cbn [mu] in Hmu. subst l.
    rewrite (drop_S _ _ _ Hsh) in Hsum |- *.
    cbn [sum_list_with slot_size items] in Hsum |- *.
    cbn [Count_loop]. unfold bind at 1. rewrite slot_run by assumption.
    unfold bind at 1. rewrite (RLock_run _ _ _ _ Hsh).
    unfold bind at 1. rewrite items_len_rlocked by assumption.
    unfold bind at 1. rewrite RUnlock_rlocked by assumption.
    rewrite (with_items_same _ _ _ Hsh).
    rewrite to_int_small by lia.
    rewrite IH by lia. do 2 f_equal. lia.
Qed.

Lemma Count_run m e :
  wf m -> Z.of_nat (total m) < 2 ^ 63 ->
  Count (m, e) = (Done (Z.of_nat (total m)), (m, e)).
Proof.
  intros Hwf Hsum. unfold Count. cbn [fst].
  pose proof Hwf as (Hs & Hlen & _).
  rewrite (Count_loop_run m e _ 0 0 Hwf); rewrite ?drop_0; try lia.
  - reflexivity.
  - exact Hsum.
Qed.

(** X10: on a table in its normal state (holding fewer than 2^63
    entries), [Count] completes, leaves the table as it was and returns
    the number of entries of all shards together; [IsEmpty] returns
    true exactly when no shard holds an entry. *)
Theorem Count_is_total_and_IsEmpty_iff_no_entry m e :
  wf m ->
  Z.of_nat (total m) < 2 ^ 63 ->
  Count (m, e) = (Done (Z.of_nat (total m)), (m, e)) /\
  exists b,
    IsEmpty (m, e) = (Done b, (m, e)) /\
    (b = true <-> forall j k, entry m j k = None).
Proof.
  intros Hwf Hsum. split; [now apply Count_run|].
  unfold IsEmpty, bind. rewrite Count_run by assumption.
  eexists. split; [reflexivity|].
  rewrite Z.eqb_eq, <- total_zero_iff. lia.
Qed.

(** X11: [Set] on an absent key makes [Count] grow by one, [Set] on a
    present key leaves [Count] as it is; [Remove] of a present key makes
    [Count] shrink by one, [Remove] of an absent key leaves it as it
    is. *)
Theorem Count_after_Set_and_Remove m e k v :
  wf m ->
  Z.of_nat (total m) + 1 < 2 ^ 63 ->
  exists n ms ns mr nr,
    Count (m, e) = (Done n, (m, e)) /\
    Set_ k v (m, e) = (Done tt, (ms, e)) /\
    Count (ms, e) = (Done ns, (ms, e)) /\
    ns = match stored m k with Some _ => n | None => n + 1 end /\
    Remove k (m, e) = (Done tt, (mr, e)) /\
    Count (mr, e) = (Done nr, (mr, e)) /\
    nr = match stored m k with Some _ => n - 1 | None => n end.
Proof.
  intros Hwf Hsum.
  pose proof (total_with_items_key m k
                (<[k := v]> (shard_items m (shard_index m k))) Hwf) as Hts.
  pose proof (total_with_items_key m k
                (delete k (shard_items m (shard_index m k))) Hwf) as Htr.
  rewrite map_size_insert in Hts. rewrite map_size_delete in Htr.
  assert (Hpos : stored m k <> None ->
                 (0 < size (shard_items m (shard_index m k)))%nat).
  { intros Hne. apply Nat.neq_0_lt_0. intros H0.
    apply map_size_empty_inv in H0. apply Hne. unfold stored, entry.
    rewrite H0. apply lookup_empty. }
  unfold stored, entry in *.
  set (its := shard_items m (shard_index m k)) in *.
  set (ms := with_items m (shard_index m k) (<[k := v]> its)) in *.
  set (mr := with_items m (shard_index m k) (delete k its)) in *.
  assert (Hwfs : wf ms) by now apply wf_with_items_key.
  assert (Hwfr : wf mr) by now apply wf_with_items_key.
  exists (Z.of_nat (total m)), ms, (Z.of_nat (total ms)),
         mr, (Z.of_nat (total mr)).
  rewrite Set_run, Remove_run by assumption. fold its ms mr.
  rewrite (Count_run m) by (assumption || lia).
  destruct (its !! k) as [x|] eqn:Hk; cbn [id] in Hts, Htr.
  - specialize (Hpos ltac:(discriminate)).
    rewrite (Count_run ms), (Count_run mr) by (assumption || lia).
    repeat (split; [reflexivity|]). repeat split; try reflexivity; lia.
  - rewrite (Count_run ms), (Count_run mr) by (assumption || lia).
    repeat (split; [reflexivity|]). repeat split; try reflexivity; lia.
Qed.

End Counting.

(** ** Routing invariant *)

Lemma entry_table (shards : Z) (j : nat) (k : string) :
  entry (table shards) j k = None.
Proof.
  unfold entry, shard_items, table. cbn [HashMap].
  destruct (replicate _ _ !! j) as [[sh|]|] eqn:Hl; try apply lookup_empty.
  apply lookup_replicate in Hl as [Hl _].
  assert (sh = empty_shard) as -> by congruence.
  apply lookup_empty.
Qed.

Lemma routed_table (shards : Z) : routed (table shards).
Proof. intros j k [v Hv]. rewrite entry_table in Hv. discriminate Hv. Qed.

Lemma routed_with_shard m key its l :
  wf m -> routed m ->
  (forall k', k' <> key ->
     its !! k' = shard_items m (shard_index m key) !! k') ->
  routed (with_shard m (shard_index m key) its l).
Proof.
  intros Hwf Hr Hits j k Hsome.
  change (shard_index (with_shard m (shard_index m key) its l) k)
    with (shard_index m k).
  rewrite entry_with_shard in Hsome by now apply shard_index_lt.
  destruct (decide (shard_index m key = j)) as [<-|Hne].
  - destruct (decide (k = key)) as [->|Hk]; [reflexivity|].
    rewrite Hits in Hsome by assumption. now apply Hr.
  - now apply Hr.
Qed.

(** The table an operation leaves, whatever its outcome: at most the
    slot of its key differs, and there only the key itself. *)
Lemma perform_shape {E : Type} (c : Call E) m (e : E) :
  wf m ->
  exists its l,
    fst (snd (perform c (m, e))) =
      with_shard m (shard_index m (call_key c)) its l /\
    (forall k', k' <> call_key c ->
       its !! k' = shard_items m (shard_index m (call_key c)) !! k').
Proof.
  intros Hwf.
  assert (Hsame : forall key,
             exists its l,
               m = with_shard m (shard_index m key) its l /\
               (forall k', k' <> key ->
                  its !! k' = shard_items m (shard_index m key) !! k')).
  { intros key. exists (shard_items m (shard_index m key)), unlocked.
    split; [|reflexivity].
    symmetry. apply (with_items_same m), located_lookup, Hwf. }
  assert (Hins : forall key x,
             exists its l,
               with_items m (shard_index m key)
                 (<[key := x]> (shard_items m (shard_index m key))) =
               with_shard m (shard_index m key) its l /\
               (forall k', k' <> key ->
                  its !! k' = shard_items m (shard_index m key) !! k')).
  { intros key x. do 2 eexists. split; [reflexivity|].
    intros k' Hk. now apply lookup_insert_ne. }
  assert (Hdel : forall key,
             exists its l,
               with_items m (shard_index m key)
                 (delete key (shard_items m (shard_index m key))) =
               with_shard m (shard_index m key) its l /\
               (forall k', k' <> key ->
                  its !! k' = shard_items m (shard_index m key) !! k')).
  { intros key. do 2 eexists. split; [reflexivity|].
    intros k' Hk. now apply lookup_delete_ne. }
  assert (Hlock : forall key,
             exists its l,
               with_locked m (shard_index m key)
                 (shard_items m (shard_index m key)) =
               with_shard m (shard_index m key) its l /\
               (forall k', k' <> key ->
                  its !! k' = shard_items m (shard_index m key) !! k')).
  { intros key. do 2 eexists. split; reflexivity. }
  destruct c; cbn [perform call_key]; unfold bind.
  - rewrite Set_run by assumption. apply Hins.
  - rewrite Get_run by assumption. apply Hsame.
  - rewrite Has_run by assumption. apply Hsame.
  - rewrite Remove_run by assumption. apply Hdel.
  - rewrite Pop_run by assumption. apply Hdel.
  - rewrite SetIfAbsent_run by assumption.
    destruct (stored m key); [apply Hsame | apply Hins].
  - rewrite SetIfPresent_run by assumption. cbv zeta.
    destruct (stored m key) as [val|]; [|apply Hsame].
    destruct (iface_eq val oldValue) as [[|]|p|];
      [apply Hins | apply Hsame | apply Hlock | apply Hlock].
  - rewrite AddIfPresent_run by assumption. cbv zeta.
    destruct (stored m key) as [val|]; [|apply Hins].
    destruct (assert_ifaces val) as [tmp|p|];
      [apply Hins | apply Hlock | apply Hlock].
  - rewrite Upsert_run by assumption. cbv zeta.
    destruct (fst (cb _ _ _ _)) as [res|p|];
      [apply Hins | apply Hlock | apply Hlock].
  - rewrite Update_run by assumption.
    destruct (stored m key); [apply Hins | apply Hsame].
  - rewrite UpdateCb_run by assumption. cbv zeta.
    destruct (stored m key) as [cur|]; [|apply Hsame].
    destruct (fst (cb _ _ _ _)) as [res|p|];
      [apply Hins | apply Hlock | apply Hlock].
Qed.

Lemma perform_routed {E : Type} (c : Call E) m (e : E) :
  wf m -> routed m -> routed (fst (snd (perform c (m, e)))).
Proof.
  intros Hwf Hr. destruct (perform_shape c m e Hwf) as (its & l & -> & Hits).
  now apply routed_with_shard.
Qed.

(** X12: every table reached from [New] by single-key operations that
    complete is in its normal state, and each of its entries sits in the
    shard its key hashes to: a key is held by at most one shard, the one
    [Get] looks into. *)
Theorem reachable_tables_route_keys m :
  reachable m ->
  wf m /\
  forall j k v,
    entry m j k = Some v <-> j = shard_index m k /\ stored m k = Some v.
Proof.
  intros Hreach.
  assert (Hinv : wf m /\ routed m).
  { induction Hreach as [shards Hs | E c m e r s' Hreach [Hwf Hr] Hp].
    - split; [now apply wf_table | apply routed_table].
    - split; [now apply (perform_wf c m e r s')|].
      pose proof (perform_routed c m e Hwf Hr) as Hr'.
      now rewrite Hp in Hr'. }
  destruct Hinv as [Hwf Hr]. split; [exact Hwf|].
  intros j k v. split.
  - intros Hv. assert (j = shard_index m k) as -> by (apply Hr; eauto).
    split; [reflexivity | exact Hv].
  - intros [-> Hv]. exact Hv.
Qed.

Lemma perform_Set_on_new_table (key : string) (value : Value) :
  perform (CSet key value) (table 64, tt) = (Done NoReply, (table_with key value, tt)).
Proof.
  cbn [perform]. unfold bind.
  now rewrite (proj2 (Set_on_new_table key value)).
Qed.

Lemma perform_Set_on_table_with (k1 : string) (v1 : Value) (k2 : string) (v2 : Value) :
  exists m,
    perform (CSet k2 v2) (table_with k1 v1, tt) = (Done NoReply, (m, tt)) /\
    stored m k2 = Some v2.
Proof.
  cbn [perform]. unfold bind. rewrite Set_run by apply wf_table_with.
  eexists. split; [reflexivity|].
  rewrite stored_with_items by apply wf_table_with. apply lookup_insert_eq.
Qed.

Lemma reachable_tables_route_keys_witness :
  exists m,
    reachable m /\
    stored m "b" = Some (VInt 2) /\
    entry m (shard_index m "b") "b" = Some (VInt 2) /\
    (forall j v, entry m j "b" = Some v -> j = shard_index m "b").
Proof.
  destruct (perform_Set_on_table_with "a" (VInt 1) "b" (VInt 2)) as (m & Hp & Hst).
  assert (Hr1 : reachable (table_with "a" (VInt 1))).
  { exact (reach_perform unit (CSet "a" (VInt 1)) (table 64) tt NoReply
             (table_with "a" (VInt 1), tt)
             (reach_New 64 ltac:(lia))
             (perform_Set_on_new_table "a" (VInt 1))). }
  assert (Hr : reachable m).
  { exact (reach_perform unit (CSet "b" (VInt 2)) (table_with "a" (VInt 1)) tt
             NoReply (m, tt) Hr1 Hp). }
  exists m. split; [exact Hr|]. split; [exact Hst|].
  destruct (reachable_tables_route_keys m Hr) as [_ Hroute].
  split.
  - apply Hroute. split; [reflexivity | exact Hst].
  - intros j v Hj. exact (proj1 (proj1 (Hroute j "b" v) Hj)).
Defined.

(** ** MSet *)

(** Two tables in their normal state with the same shard count and the
    same entries in every slot are the same table. *)
Lemma table_ext m1 m2 :
  wf m1 -> wf m2 -> Shards m1 = Shards m2 ->
  (forall j k, entry m1 j k = entry m2 j k) ->
  m1 = m2.
Proof.
  intros (Hs1 & Hl1 & Ha1) (Hs2 & Hl2 & Ha2) Hs He.
  destruct m1 as [n1 l1], m2 as [n2 l2]. cbn [Shards HashMap] in *.
  assert (Hlen : length l1 = length l2) by lia.
  f_equal; [exact Hs|]. apply list_eq. intros j.
  destruct (decide (j < length l1)%nat) as [Hlt|Hge].
  - destruct (Ha1 j Hlt) as ([its1 mu1] & Hj1 & Hm1).
    destruct (Ha2 j ltac:(lia)) as ([its2 mu2] & Hj2 & Hm2).
    cbn [mu] in Hm1, Hm2. subst mu1 mu2. rewrite Hj1, Hj2. do 3 f_equal.
    apply map_eq. intros k. specialize (He j k).
    unfold entry, shard_items in He. cbn [HashMap] in He.
    now rewrite Hj1, Hj2 in He.
  - rewrite !lookup_ge_None_2 by lia. reflexivity.
Qed.

Section BatchSet.

Context {E : Type}.
Implicit Types (m : ConcurrentHashMap) (e : E) (k : string) (v : Value).
Implicit Types (kvs : list (string * Value)) (data : gmap string Value).

Lemma MSet_cons_run m e k v kvs :
  wf m ->
  MSet ((k, v) :: kvs) (m, e) =
  MSet kvs (with_items m (shard_index m k)
              (<[k := v]> (shard_items m (shard_index m k))), e).
Proof.
  intros Hwf. cbn [MSet]. unfold bind. rewrite GetShard_run by assumption.
  locate m k. go. reflexivity.
Qed.

(** What a run of [MSet] over pairs with distinct keys leaves. *)
Lemma MSet_run kvs : forall m e,
  wf m -> NoDup kvs.*1 ->
  exists m',
    MSet kvs (m, e) = (Done tt, (m', e)) /\
    wf m' /\
    Shards m' = Shards m /\
    (forall j k,
        entry m' j k =
        if decide (j = shard_index m k)
        then match (list_to_map kvs : gmap string Value) !! k with
             | Some x => Some x
             | None => entry m j k
             end
        else entry m j k) /\
    ((forall k, k ∈ kvs.*1 -> stored m k = None) ->
     total m' = (total m + length kvs)%nat).
Proof.
  induction kvs as [|[k0 v0] kvs IH]; intros m e Hwf Hnd.
  - exists m. split; [reflexivity|]. split; [assumption|]. split; [reflexivity|].
    split; [|intros _; cbn; lia].
    intros j k. cbn [list_to_map foldr]. rewrite lookup_empty.
    now destruct (decide _).
  - cbn [fmap list_fmap fst] in Hnd. apply NoDup_cons in Hnd as [Hk0 Hnd].
    rewrite MSet_cons_run by assumption.
    set (i0 := shard_index m k0).
    set (m1 := with_items m i0 (<[k0 := v0]> (shard_items m i0))).
    assert (Hwf1 : wf m1) by now apply wf_with_items_key.
    assert (Hlt : (i0 < length (HashMap m))%nat) by now apply shard_index_lt.
    assert (He1 : forall j k,
               entry m1 j k =
               if decide (i0 = j)
               then <[k0 := v0]> (shard_items m i0) !! k
               else entry m j k).
    { intros j k. apply (entry_with_shard m i0 _ unlocked j k Hlt). }
    destruct (IH m1 e Hwf1 Hnd) as (m' & Hrun & Hwf' & Hs' & He' & Ht').
    exists m'. split; [exact Hrun|]. split; [exact Hwf'|].
    split; [exact Hs'|]. split.
    + intros j k. rewrite He'.
      change (shard_index m1 k) with (shard_index m k).
      cbn [list_to_map foldr uncurry fst snd]. rewrite He1.
      destruct (decide (j = shard_index m k)) as [->|Hj].
      * destruct (decide (k = k0)) as [->|Hk].
        -- rewrite (not_elem_of_list_to_map_1 _ _ Hk0).
           fold i0. rewrite decide_True by reflexivity.
           now rewrite !lookup_insert_eq.
        -- rewrite (lookup_insert_ne (list_to_map kvs)) by congruence.
           destruct (list_to_map kvs !! k); [reflexivity|].
           destruct (decide (i0 = shard_index m k)) as [Hi|Hi]; [|reflexivity].
           rewrite lookup_insert_ne by congruence.
           unfold entry. now rewrite Hi.
      * destruct (decide (i0 = j)) as [<-|Hi]; [|reflexivity].
        rewrite lookup_insert_ne; [reflexivity|].
        intros <-. now apply Hj.
    + intros Habs.
      assert (Hk0abs : stored m k0 = None)
        by (apply Habs; cbn; apply elem_of_cons; now left).
      rewrite Ht'.
      * pose proof (total_with_items_key m k0
                      (<[k0 := v0]> (shard_items m i0)) Hwf) as Ht.
        fold i0 m1 in Ht.
        rewrite map_size_insert_None in Ht by exact Hk0abs.
        cbn [length]. lia.
      * intros k Hk. unfold stored. rewrite He1.
        change (shard_index m1 k) with (shard_index m k).
        assert (k <> k0) by (intros ->; now apply Hk0).
        destruct (decide _) as [Hi|Hi].
        -- rewrite lookup_insert_ne by congruence. rewrite Hi.
           apply Habs. cbn. apply elem_of_cons. now right.
        -- apply Habs. cbn. apply elem_of_cons. now right.
Qed.

(** X13: [MSet] of a map [data] completes in whatever order the range
    over [data] produces the pairs; afterwards every key of [data] holds
    its value from [data], every other key holds what it held, and the
    table left does not depend on the order. *)
Theorem MSet_sets_every_pair_in_any_order m e data kvs :
  wf m ->
  kvs ≡ₚ map_to_list data ->
  exists m',
    MSet kvs (m, e) = (Done tt, (m', e)) /\
    wf m' /\
    (forall k, stored m' k =
               match data !! k with
               | Some x => Some x
               | None => stored m k
               end) /\
    (forall kvs2, kvs2 ≡ₚ map_to_list data ->
                  MSet kvs2 (m, e) = (Done tt, (m', e))).
Proof.
  intros Hwf Hp.
  assert (Hnd : forall l, l ≡ₚ map_to_list data -> NoDup l.*1).
  { intros l Hl. rewrite Hl. apply NoDup_fst_map_to_list. }
  assert (Hmap : forall l, l ≡ₚ map_to_list data ->
                           (list_to_map l : gmap string Value) = data).
  { intros l Hl. rewrite <- (list_to_map_to_list data).
    apply list_to_map_proper; [now apply Hnd | exact Hl]. }
  destruct (MSet_run kvs m e Hwf (Hnd _ Hp)) as (m' & Hrun & Hwf' & Hs' & He' & _).
  rewrite (Hmap _ Hp) in He'.
  exists m'. split; [exact Hrun|]. split; [exact Hwf'|]. split.
  - intros k. unfold stored.
    replace (shard_index m' k) with (shard_index m k)
      by (unfold shard_index; now rewrite Hs').
    rewrite He'. now rewrite decide_True.
  - intros kvs2 Hp2.
    destruct (MSet_run kvs2 m e Hwf (Hnd _ Hp2)) as (m2 & Hrun2 & Hwf2 & Hs2 & He2 & _).
    rewrite (Hmap _ Hp2) in He2. rewrite Hrun2. do 2 f_equal.
    apply table_ext; try assumption; [congruence|].
    intros j k. now rewrite He', He2.
Qed.

(** X14: [MSet] of a map whose keys are all new to the table makes
    [Count] grow by the number of entries of the map. *)
Theorem Count_after_MSet_of_new_keys m e data kvs :
  wf m ->
  kvs ≡ₚ map_to_list data ->
  (forall k, is_Some (data !! k) -> stored m k = None) ->
  Z.of_nat (total m) + Z.of_nat (size data) < 2 ^ 63 ->
  exists m',
    MSet kvs (m, e) = (Done tt, (m', e)) /\
    Count (m, e) = (Done (Z.of_nat (total m)), (m, e)) /\
    Count (m', e) = (Done (Z.of_nat (total m) + Z.of_nat (size data)), (m', e)).
Proof.
  intros Hwf Hp Hnew Hsum.
  assert (Hnd : NoDup kvs.*1) by (rewrite Hp; apply NoDup_fst_map_to_list).
  destruct (MSet_run kvs m e Hwf Hnd) as (m' & Hrun & Hwf' & _ & _ & Ht').
  assert (Hlen : length kvs = size data)
    by (rewrite Hp; apply length_map_to_list).
  assert (Htot : total m' = (total m + size data)%nat).
  { rewrite Ht', Hlen; [reflexivity|].
    intros k Hk. apply Hnew. rewrite Hp in Hk.
    apply list_elem_of_fmap in Hk as ([k' x] & -> & Hx).
    apply elem_of_map_to_list in Hx. eauto. }
  exists m'. split; [exact Hrun|]. split.
  - apply Count_run; [assumption | lia].
  - rewrite Count_run by (try assumption; rewrite Htot; lia).
    rewrite Htot. now rewrite Nat2Z.inj_add.
Qed.

End BatchSet.

(** ** IterCb *)

Lemma visit_order_all_entries order idx slots :
  (forall j its, order j its ≡ₚ map_to_list its) ->
  visit_order order idx slots ≡ₚ concat (slot_entries <$> slots).
Proof.
  intros Hord. revert idx. induction slots as [|o slots IH]; intros idx.
  - reflexivity.
  - cbn [visit_order fmap list_fmap concat]. rewrite IH, Hord.
    destruct o as [sh|]; cbn [slot_items slot_entries]; [reflexivity|].
    now rewrite map_to_list_empty.
Qed.

Lemma length_all_entries slots :
  length (concat (slot_entries <$> slots)) = sum_list_with slot_size slots.
Proof.
  induction slots as [|o slots IH]; [reflexivity|].
  cbn [fmap list_fmap concat sum_list_with]. rewrite length_app, IH.
  destruct o as [sh|]; cbn [slot_entries slot_size length]; [|reflexivity].
  now rewrite length_map_to_list.
Qed.

Lemma elem_of_all_entries slots k v :
  (k, v) ∈ concat (slot_entries <$> slots) <->
  exists j sh, slots !! j = Some (Some sh) /\ items sh !! k = Some v.
Proof.
  induction slots as [|o slots IH].
  - cbn. rewrite elem_of_nil. split; [tauto|]. intros (j & sh & Hj & _).
    discriminate Hj.
  - cbn [fmap list_fmap concat]. rewrite elem_of_app, IH. split.
    + intros [Hin | (j & sh & Hj & Hk)].
      * destruct o as [sh|]; cbn [slot_entries] in Hin;
          [|now apply elem_of_nil in Hin].
        apply elem_of_map_to_list in Hin. exists 0%nat, sh. now split.
      * exists (S j), sh. now split.
    + intros ([|j] & sh & Hj & Hk).
      * injection Hj as ->. left. cbn [slot_entries].
        now apply elem_of_map_to_list.
      * right. exists j, sh. now split.
Qed.

Lemma NoDup_keys_all_entries slots :
  (forall j1 j2 sh1 sh2 k,
      slots !! j1 = Some (Some sh1) -> slots !! j2 = Some (Some sh2) ->
      is_Some (items sh1 !! k) -> is_Some (items sh2 !! k) -> j1 = j2) ->
  NoDup (concat (slot_entries <$> slots)).*1.
Proof.
  induction slots as [|o slots IH]; intros Hone.
  - constructor.
  - cbn [fmap list_fmap concat]. rewrite fmap_app. apply NoDup_app.
    split; [|split].
    + destruct o as [sh|]; cbn [slot_entries]; [|constructor].
      apply NoDup_fst_map_to_list.
    + intros k Hk1 Hk2.
      apply list_elem_of_fmap in Hk1 as ([k1 v1] & -> & Hv1).
      apply list_elem_of_fmap in Hk2 as ([k2 v2] & Heq & Hv2).
      cbn [fst] in Heq. subst k2.
      destruct o as [sh|]; cbn [slot_entries] in Hv1;
        [|now apply elem_of_nil in Hv1].
      apply elem_of_map_to_list in Hv1.
      apply elem_of_all_entries in Hv2 as (j & sh2 & Hj & Hk).
      assert (H0 : 0%nat = S j) by (apply (Hone 0%nat (S j) sh sh2 k1); eauto).
      discriminate H0.
    + apply IH. intros j1 j2 sh1 sh2 k H1 H2 Hk1 Hk2.
      assert (HS : S j1 = S j2) by (apply (Hone (S j1) (S j2) sh1 sh2 k); eauto).
      now injection HS.
Qed.

Section Iteration.

Context {E : Type}.
Implicit Types (m : ConcurrentHashMap) (e : E).
Implicit Types (fn : IterCbFunc (E := E)) (kvs : list (string * Value)).

(** The calls of a range loop touch the callback's state only. *)
Lemma range_items_table fn kvs e :
  exists o e', forall m, range_items fn kvs (m, e) = (o, (m, e')).
Proof.
  revert e. induction kvs as [|[k v] kvs IH]; intros e.
  - exists (Done tt), e. reflexivity.
  - cbn [range_items]. unfold bind, call_fn. cbn [fst snd].
    destruct (fn k v e) as [[[]|p|] e1].
    + destruct (IH e1) as (o & e' & Hrun). exists o, e'. intros m. apply Hrun.
    + exists (Panicked p), e1. reflexivity.
    + exists Blocked, e1. reflexivity.
Qed.

Lemma range_items_app fn kvs1 kvs2 s :
  range_items fn (kvs1 ++ kvs2) s =
  bind (range_items fn kvs1) (fun _ => range_items fn kvs2) s.
Proof.
  revert s. induction kvs1 as [|[k v] kvs1 IH]; intros s.
  - reflexivity.
  - cbn [app range_items]. unfold bind.
    destruct (call_fn fn k v s) as [[[]|p|] s1]; [|reflexivity..].
    rewrite IH. reflexivity.
Qed.

Lemma deref_rlocked m e i its :
  (i < length (HashMap m))%nat ->
  deref i (with_rlocked m i its, e) =
  (Done {| items := its; mu := {| writer := false; readers := 1 |} |},
   (with_rlocked m i its, e)).
Proof.
  intros Hlt. unfold deref, with_rlocked. cbn [fst HashMap].
  now rewrite list_lookup_insert_eq.
Qed.

Lemma IterCb_loop_run order fn m n : forall i e e',
  wf m ->
  (i + n = length (HashMap m))%nat ->
  range_items fn (visit_order order i (drop i (HashMap m))) (m, e) =
    (Done tt, (m, e')) ->
  IterCb_loop order fn n i (m, e) = (Done tt, (m, e')).
Proof.
  induction n as [|n IH]; intros i e e' Hwf Hin Hrun.
  - replace i with (length (HashMap m)) in Hrun by lia.
    rewrite drop_all in Hrun. exact Hrun.
  - assert (Hlt : (i < length (HashMap m))%nat) by lia.
    pose proof Hwf as (Hs & Hlen & Hall).
    destruct (Hall i Hlt) as ([its l] & Hsh & Hmu). cbn [mu] in Hmu. subst l.
    rewrite (drop_S _ _ _ Hsh) in Hrun. cbn [visit_order slot_items items] in Hrun.
    rewrite range_items_app in Hrun. unfold bind in Hrun.
    destruct (range_items_table fn (order i its) e) as (o & e1 & Hfirst).
    rewrite Hfirst in Hrun. destruct o as [[]|p|]; try discriminate Hrun.
    cbn [IterCb_loop]. unfold bind at 1. rewrite slot_run by assumption.
    unfold bind at 1. rewrite (RLock_run _ _ _ _ Hsh).
    unfold bind at 1. rewrite deref_rlocked by assumption. cbn [items].
    unfold bind at 1. rewrite Hfirst.
    unfold bind at 1. rewrite RUnlock_rlocked by assumption.
    rewrite (with_items_same _ _ _ Hsh).
    apply IH; [assumption | lia | exact Hrun].
Qed.

Lemma range_items_recorder kvs m (seen : list (string * Value)) :
  range_items recorder kvs (m, seen) = (Done tt, (m, seen ++ kvs)).
Proof.
  revert seen. induction kvs as [|[k v] kvs IH]; intros seen.
  - cbn. unfold ret. now rewrite app_nil_r.
  - cbn [range_items]. unfold bind, call_fn, recorder at 1. cbn [fst snd].
    rewrite IH. now rewrite <- app_assoc.
Qed.

End Iteration.

(** X15: on a table in its normal state [IterCb] hands every entry of
    the table to the callback exactly once, whatever order the ranges
    over the shards' maps take, and leaves the table as it was: the
    pairs seen are a rearrangement of the table's entries, as many as
    [Count] reports; in a table whose keys sit in their shards no key is
    seen twice and the pairs seen are exactly those [Get] would
    return.  With any callback that does not panic, the run is the
    callback applied to those pairs in sequence. *)
Theorem IterCb_visits_every_entry_once
    (order : nat -> gmap string Value -> list (string * Value))
    (m : ConcurrentHashMap) :
  wf m ->
  (forall j its, order j its ≡ₚ map_to_list its) ->
  exists visited,
    (forall seen,
        IterCb order recorder (m, seen) = (Done tt, (m, seen ++ visited))) /\
    (forall (E : Type) (fn : IterCbFunc (E := E)) (e e' : E),
        range_items fn visited (m, e) = (Done tt, (m, e')) ->
        IterCb order fn (m, e) = (Done tt, (m, e'))) /\
    visited ≡ₚ all_entries m /\
    length visited = total m /\
    (forall k v, (k, v) ∈ visited <-> exists j, entry m j k = Some v) /\
    (routed m ->
     NoDup visited.*1 /\
     forall k v, (k, v) ∈ visited <-> stored m k = Some v).
Proof.
  intros Hwf Hord.
  exists (visit_order order 0 (HashMap m)).
  assert (Hgen : forall (E : Type) (fn : IterCbFunc (E := E)) (e e' : E),
             range_items fn (visit_order order 0 (HashMap m)) (m, e) =
               (Done tt, (m, e')) ->
             IterCb order fn (m, e) = (Done tt, (m, e'))).
  { intros E fn e e' Hrun. unfold IterCb. cbn [fst].
    apply IterCb_loop_run; [assumption | lia | now rewrite drop_0]. }
  assert (Hperm : visit_order order 0 (HashMap m) ≡ₚ all_entries m)
    by now apply visit_order_all_entries.
  assert (Hmem : forall k v,
             (k, v) ∈ visit_order order 0 (HashMap m) <->
             exists j, entry m j k = Some v).
  { intros k v. rewrite Hperm. unfold all_entries. rewrite elem_of_all_entries.
    unfold entry, shard_items. split.
    - intros (j & sh & Hj & Hk). exists j. now rewrite Hj.
    - intros (j & Hk). destruct (HashMap m !! j) as [[sh|]|] eqn:Hj;
        try (rewrite lookup_empty in Hk; discriminate Hk).
      exists j, sh. now split. }
  split; [|split; [exact Hgen|split; [exact Hperm|split; [|split; [exact Hmem|]]]]].
  - intros seen. apply Hgen, range_items_recorder.
  - rewrite Hperm. apply length_all_entries.
  - intros Hr. split.
    + rewrite Hperm. apply NoDup_keys_all_entries.
      intros j1 j2 sh1 sh2 k H1 H2 Hk1 Hk2.
      assert (Hj1 : j1 = shard_index m k)
        by (apply Hr; unfold entry, shard_items; now rewrite H1).
      assert (Hj2 : j2 = shard_index m k)
        by (apply Hr; unfold entry, shard_items; now rewrite H2).
      congruence.
    + intros k v. rewrite Hmem. split.
      * intros (j & Hk). assert (j = shard_index m k) as -> by (apply Hr; eauto).
        exact Hk.
      * intros Hk. now exists (shard_index m k).
Qed.

(** ** Construction, hashing and the two callback operations *)

Lemma total_table (shards : Z) : total (table shards) = 0%nat.
Proof. apply total_zero_iff. intros j k. apply entry_table. Qed.

(** X16: for a shard count from 1 up to the longest slice [make]
    accepts, [New] returns a table in its normal state with that many
    shards and no entry: every [Get] reports absent with a nil value,
    [Count] is 0 and [IsEmpty] is true.  Above that length [New] panics
    in [make]. *)
Theorem New_builds_an_empty_table (shards : Z) :
  (0 < shards <= max_slots ->
   exists m,
     New shards = Done m /\
     wf m /\
     Shards m = shards /\
     Z.of_nat (length (HashMap m)) = shards /\
     (forall (E : Type) (e : E) (k : string),
         Get k (m, e) = (Done (VNil, false), (m, e))) /\
     (forall (E : Type) (e : E),
         Count (m, e) = (Done 0, (m, e)) /\
         IsEmpty (m, e) = (Done true, (m, e)))) /\
  (max_slots < shards -> New shards = Panicked MakeSliceLen).
Proof.
  split.
  - intros Hs. exists (table shards).
    assert (Hwf : wf (table shards))
      by (apply wf_table; unfold max_slots in Hs; lia).
    split; [apply New_run; lia|]. split; [exact Hwf|]. split; [reflexivity|].
    split; [apply Hwf|]. split.
    + intros E e k. rewrite Get_run by assumption. now rewrite stored_table.
    + intros E e.
      assert (Hc : Count (table shards, e) = (Done 0, (table shards, e))).
      { rewrite Count_run by (try assumption; rewrite total_table; lia).
        now rewrite total_table. }
      split; [exact Hc|]. unfold IsEmpty, bind. now rewrite Hc.
  - intros Hs. unfold New, make_slots.
    apply Z.ltb_lt in Hs as ->. now rewrite orb_true_r.
Qed.

Lemma bytes_of_append (a b : string) :
  Hasher.bytes_of (String.append a b) = Hasher.bytes_of a ++ Hasher.bytes_of b.
Proof.
  unfold Hasher.bytes_of. induction a as [|c a IH]; [reflexivity|].
  change (String.append (String c a) b) with (String c (String.append a b)).
  cbn [list_ascii_of_string List.map app]. now rewrite IH.
Qed.

(** X17: the hash can be computed in pieces: the hash of [a] followed
    by [b] is obtained from the hash of [a] by running the same
    multiply-then-XOR step over the bytes of [b]; so two keys that
    extend prefixes with equal hashes by the same suffix hash alike. *)
Theorem fnv32_of_concatenation (a b : string) :
  Hasher.fnv32 (String.append a b) =
    List.fold_left
      (fun h c => Z.lxor (Hasher.wrap32 (h * Hasher.prime32)) c)
      (Hasher.bytes_of b) (Hasher.fnv32 a) /\
  (forall a', Hasher.fnv32 a' = Hasher.fnv32 a ->
              Hasher.fnv32 (String.append a' b) = Hasher.fnv32 (String.append a b)).
Proof.
  assert (Hcat : forall x y,
             Hasher.fnv32 (String.append x y) =
             List.fold_left
               (fun h c => Z.lxor (Hasher.wrap32 (h * Hasher.prime32)) c)
               (Hasher.bytes_of y) (Hasher.fnv32 x)).
  { intros x y.
    pose proof (fnv32_loop_fold EmptyString (String.append x y) Hasher.offset32) as Hxy.
    pose proof (fnv32_loop_fold EmptyString x Hasher.offset32) as Hx.
    unfold Hasher.fnv32. cbn [String.length] in Hxy, Hx.
    change (String.append EmptyString ?s) with s in Hxy, Hx.
    rewrite Hxy, Hx, bytes_of_append. apply List.fold_left_app. }
  split; [apply Hcat|].
  intros a' Ha. now rewrite !Hcat, Ha.
Qed.

(** X18: on a present key [UpdateCb k v cb] does to the table and to
    the callback's state what [Upsert k v cb] does, and returns true
    where [Upsert] returns the callback's result. *)
Theorem UpdateCb_on_present_key_is_Upsert {E : Type} m (e : E) k v
    (cb : UpsertCb E) (cur : Value) :
  wf m ->
  stored m k = Some cur ->
  snd (UpdateCb k v cb (m, e)) = snd (Upsert k v cb (m, e)) /\
  (forall res, fst (Upsert k v cb (m, e)) = Done res ->
               fst (UpdateCb k v cb (m, e)) = Done true) /\
  (forall res, fst (cb true cur v e) = Done res ->
               fst (Upsert k v cb (m, e)) = Done res).
Proof.
  intros Hwf Hst. rewrite UpdateCb_run, Upsert_run by assumption. cbv zeta.
  rewrite Hst. cbn [comma_ok fst snd].
  destruct (cb true cur v e) as [[res|p|] e']; cbn [fst snd];
    repeat split; intros; congruence.
Qed.

(** ** A callback that panics inside the iterator *)

Section IterationPanics.

Context {E : Type}.
Implicit Types (m : ConcurrentHashMap) (e : E) (fn : IterCbFunc (E := E)).

Lemma IterCb_loop_panics order fn m (p : PanicKind) n : forall i e e',
  wf m ->
  (i + n = length (HashMap m))%nat ->
  range_items fn (visit_order order i (drop i (HashMap m))) (m, e) =
    (Panicked p, (m, e')) ->
  exists j its,
    HashMap m !! j = Some (Some {| items := its; mu := unlocked |}) /\
    IterCb_loop order fn n i (m, e) = (Panicked p, (with_rlocked m j its, e')).
Proof.
  induction n as [|n IH]; intros i e e' Hwf Hin Hrun.
  - replace i with (length (HashMap m)) in Hrun by lia.
    rewrite drop_all in Hrun. discriminate Hrun.
  - assert (Hlt : (i < length (HashMap m))%nat) by lia.
    pose proof Hwf as (Hs & Hlen & Hall).
    destruct (Hall i Hlt) as ([its l] & Hsh & Hmu). cbn [mu] in Hmu. subst l.
    rewrite (drop_S _ _ _ Hsh) in Hrun. cbn [visit_order slot_items items] in Hrun.
    rewrite range_items_app in Hrun. unfold bind in Hrun.
    destruct (range_items_table fn (order i its) e) as (o & e1 & Hfirst).
    rewrite Hfirst in Hrun.
    cbn [IterCb_loop]. unfold bind at 1. rewrite slot_run by assumption.
    unfold bind at 1. rewrite (RLock_run _ _ _ _ Hsh).
    unfold bind at 1. rewrite deref_rlocked by assumption. cbn [items].
    unfold bind at 1. rewrite Hfirst.
    destruct o as [[]|q|]; try discriminate Hrun.
    + unfold bind at 1. rewrite RUnlock_rlocked by assumption.
      rewrite (with_items_same _ _ _ Hsh).
      apply IH; [assumption | lia | exact Hrun].
    + injection Hrun as -> ->. exists i, its. split; [exact Hsh | reflexivity].
Qed.

(** X19: when the callback panics on one of the entries, [IterCb]
    panics with it while it still holds the read lock of the shard being
    visited, and never releases it: a [Set] on a key of that shard then
    waits for the lock, while a [Get] on such a key issued before any
    writer has queued still answers as before. *)
Theorem IterCb_panicking_callback_keeps_read_lock order fn m e e' (p : PanicKind) :
  wf m ->
  range_items fn (visit_order order 0 (HashMap m)) (m, e) = (Panicked p, (m, e')) ->
  exists j its m',
    HashMap m !! j = Some (Some {| items := its; mu := unlocked |}) /\
    m' = with_rlocked m j its /\
    IterCb order fn (m, e) = (Panicked p, (m', e')) /\
    (forall k v e2,
        shard_index m k = j -> fst (Set_ k v (m', e2)) = Blocked) /\
    (forall k e2,
        shard_index m k = j ->
        Get k (m', e2) = (Done (comma_ok (stored m k)), (m', e2))).
Proof.
  intros Hwf Hrun.
  destruct (IterCb_loop_panics order fn m p (length (HashMap m)) 0 e e' Hwf
              ltac:(lia) ltac:(now rewrite drop_0))
    as (j & its & Hsh & Hloop).
  pose proof (lookup_lt_Some _ _ _ Hsh) as Hlt.
  exists j, its, (with_rlocked m j its).
  split; [exact Hsh|]. split; [reflexivity|]. split; [exact Hloop|].
  assert (HG : forall k e2, shard_index m k = j ->
             GetShard k (with_rlocked m j its, e2) =
             (Done j, (with_rlocked m j its, e2))).
  { intros k e2 Hk. destruct (wf_located m k Hwf) as [Hd Hl _ _].
    unfold GetShard. cbv zeta.
    change (shard_index (with_rlocked m j its, e2).1 k) with (shard_index m k).
    unfold with_rlocked. cbn [fst Shards HashMap].
    rewrite Hd, length_insert, Hl. now rewrite Hk. }
  split.
  - intros k v e2 Hk. unfold Set_, bind. rewrite HG by assumption.
    unfold Lock, bind, deref, with_rlocked. cbn [fst HashMap].
    now rewrite list_lookup_insert_eq.
  - intros k e2 Hk. unfold Get, bind. rewrite HG by assumption.
    unfold RLock, RUnlock, items_get, bind, deref, assign, ret, with_rlocked.
    cbn [fst snd HashMap Shards].
    rewrite list_lookup_insert_eq by assumption. cbn.
    rewrite list_lookup_insert_eq by (rewrite length_insert; assumption). cbn.
    rewrite list_lookup_insert_eq by (rewrite length_insert; assumption). cbn.
    rewrite !list_insert_insert_eq.
    unfold stored, entry, shard_items. rewrite Hk, Hsh. cbn [items].
    now destruct (its !! k).
Qed.

End IterationPanics.

(** ** Concrete runs of the further properties *)

Lemma total_table_64_small : Z.of_nat (total (table 64)) + 1 < 2 ^ 63.
Proof. rewrite total_table. lia. Qed.

Lemma Set_then_Get_and_Has_witness :
  wf (table 64) /\
  exists m',
    Set_ "a" (VInt 1) (table 64, tt) = (Done tt, (m', tt)) /\
    wf m' /\
    Get "a" (m', tt) = (Done (VInt 1, true), (m', tt)) /\
    Has "a" (m', tt) = (Done true, (m', tt)).
Proof.
  split; [exact wf_table_64|].
  exact (Set_then_Get_and_Has (table 64) tt "a" (VInt 1) wf_table_64).
Defined.

Lemma Set_twice_is_last_Set_witness :
  wf (table 64) /\
  bind (Set_ "a" (VInt 1)) (fun _ => Set_ "a" (VInt 2)) (table 64, tt) =
  Set_ "a" (VInt 2) (table 64, tt).
Proof.
  split; [exact wf_table_64|].
  exact (Set_twice_is_last_Set (table 64) tt "a" (VInt 1) (VInt 2) wf_table_64).
Defined.

Lemma Remove_then_absent_witness :
  wf (table_with "a" (VInt 1)) /\
  exists m',
    Remove "a" (table_with "a" (VInt 1), tt) = (Done tt, (m', tt)) /\
    Get "a" (m', tt) = (Done (VNil, false), (m', tt)).
Proof.
  split; [apply wf_table_with|].
  destruct (Remove_then_absent (table_with "a" (VInt 1)) tt "a"
              (wf_table_with "a" (VInt 1)))
    as (m' & Hrun & _ & Hget & _).
  exists m'. split; [exact Hrun | exact Hget].
Defined.

Lemma Get_and_Has_read_only_witness :
  wf (table_with "a" (VInt 1)) /\
  exists value ok,
    Get "a" (table_with "a" (VInt 1), tt) =
      (Done (value, ok), (table_with "a" (VInt 1), tt)) /\
    Has "a" (table_with "a" (VInt 1), tt) =
      (Done ok, (table_with "a" (VInt 1), tt)).
Proof.
  split; [apply wf_table_with|].
  destruct (Get_and_Has_read_only (table_with "a" (VInt 1)) tt "a"
              (wf_table_with "a" (VInt 1)))
    as (value & ok & Hget & Hhas & _).
  exists value, ok. split; [exact Hget | exact Hhas].
Defined.

Lemma Pop_is_Get_then_Remove_witness :
  wf (table_with "a" (VInt 1)) /\
  Pop "a" (table_with "a" (VInt 1), tt) =
  bind (Get "a") (fun r => bind (Remove "a") (fun _ => ret r))
    (table_with "a" (VInt 1), tt).
Proof.
  split; [apply wf_table_with|].
  exact (Pop_is_Get_then_Remove (table_with "a" (VInt 1)) tt "a"
           (wf_table_with "a" (VInt 1))).
Defined.

Lemma replacing_callback_gives_Set_and_Update_witness :
  wf (table 64) /\
  fst (Upsert "a" (VInt 1) replaceCb (table 64, tt)) = Done (VInt 1).
Proof.
  split; [exact wf_table_64|].
  exact (proj1 (replacing_callback_gives_Set_and_Update
                  (table 64) tt "a" (VInt 1) wf_table_64)).
Defined.

Lemma plain_operations_complete_witness :
  runs_checks (E := unit) (CSet "a" (VInt 1)) = false /\
  wf (table 64) /\
  exists r m',
    perform (CSet "a" (VInt 1)) (table 64, tt) = (Done r, (m', tt)) /\ wf m'.
Proof.
  split; [reflexivity|]. split; [exact wf_table_64|].
  exact (plain_operations_complete (CSet "a" (VInt 1)) (table 64) tt
           eq_refl wf_table_64).
Defined.

Lemma Upsert_panicking_callback_keeps_lock_witness :
  wf (table 64) /\
  fst (Upsert "m" (VInt 1) appendCombiner (table 64, tt)) = Panicked BadAssertion /\
  fst (Get "m" (snd (Upsert "m" (VInt 1) appendCombiner (table 64, tt)))) = Blocked.
Proof.
  split; [exact wf_table_64|].
  assert (Hp : fst (appendCombiner (E := unit)
                      (snd (comma_ok (stored (table 64) "m")))
                      (fst (comma_ok (stored (table 64) "m"))) (VInt 1) tt) =
               Panicked BadAssertion)
    by (rewrite stored_table; reflexivity).
  pose proof (Upsert_panicking_callback_keeps_lock
                (table 64) tt "m" (VInt 1) appendCombiner BadAssertion
                wf_table_64 Hp) as H.
  cbv zeta in H. destruct H as (Hout & _ & Hblock).
  split; [exact Hout|].
  specialize (Hblock (CGet "m") tt eq_refl).
  cbn [perform] in Hblock. unfold bind in Hblock.
  destruct (snd (Upsert "m" (VInt 1) appendCombiner (table 64, tt))) as [m' []].
  cbn [fst] in Hblock.
  destruct (Get "m" (m', tt)) as [[r|q|] s2]; try discriminate Hblock.
  reflexivity.
Defined.

Lemma AddIfPresent_on_other_type_panics_witness :
  wf (table_with "k" (VInt 1)) /\
  stored (table_with "k" (VInt 1)) "k" = Some (VInt 1) /\
  fst (AddIfPresent "k" (VInt 2) (table_with "k" (VInt 1), tt)) =
    Panicked BadAssertion.
Proof.
  split; [apply wf_table_with|]. split; [apply stored_table_with|].
  assert (Hty : forall xs, VInt 1 <> VIfaces xs) by (intros xs H; discriminate H).
  pose proof (AddIfPresent_on_other_type_panics
                (table_with "k" (VInt 1)) tt "k" (VInt 2) (VInt 1)
                (wf_table_with "k" (VInt 1))
                (stored_table_with "k" (VInt 1)) Hty) as H.
  cbv zeta in H. exact (proj1 H).
Defined.

Lemma Count_is_total_and_IsEmpty_iff_no_entry_witness :
  wf (table 64) /\ Z.of_nat (total (table 64)) < 2 ^ 63 /\
  Count (table 64, tt) = (Done (Z.of_nat (total (table 64))), (table 64, tt)).
Proof.
  assert (Hsum : Z.of_nat (total (table 64)) < 2 ^ 63)
    by (pose proof total_table_64_small; lia).
  split; [exact wf_table_64|]. split; [exact Hsum|].
  exact (proj1 (Count_is_total_and_IsEmpty_iff_no_entry
                  (table 64) tt wf_table_64 Hsum)).
Defined.

Lemma Count_after_Set_and_Remove_witness :
  wf (table 64) /\ Z.of_nat (total (table 64)) + 1 < 2 ^ 63 /\
  exists n ms ns,
    Count (table 64, tt) = (Done n, (table 64, tt)) /\
    Set_ "a" (VInt 1) (table 64, tt) = (Done tt, (ms, tt)) /\
    Count (ms, tt) = (Done ns, (ms, tt)) /\
    ns = match stored (table 64) "a" with Some _ => n | None => n + 1 end.
Proof.
  split; [exact wf_table_64|]. split; [exact total_table_64_small|].
  destruct (Count_after_Set_and_Remove (table 64) tt "a" (VInt 1)
              wf_table_64 total_table_64_small)
    as (n & ms & ns & mr & nr & H1 & H2 & H3 & H4 & _).
  exists n, ms, ns. repeat split; assumption.
Defined.

Lemma two_pairs_listing :
  [("a", VInt 1); ("b", VInt 2)] ≡ₚ
  map_to_list (<["a" := VInt 1]> {["b" := VInt 2]} : gmap string Value).
Proof.
  rewrite map_to_list_insert by (apply lookup_singleton_ne; discriminate).
  now rewrite map_to_list_singleton.
Qed.

Lemma MSet_sets_every_pair_in_any_order_witness :
  wf (table 64) /\
  exists m',
    MSet [("a", VInt 1); ("b", VInt 2)] (table 64, tt) = (Done tt, (m', tt)) /\
    MSet [("b", VInt 2); ("a", VInt 1)] (table 64, tt) = (Done tt, (m', tt)) /\
    stored m' "a" = Some (VInt 1) /\
    stored m' "b" = Some (VInt 2) /\
    stored m' "c" = stored (table 64) "c".
Proof.
  split; [exact wf_table_64|].
  destruct (MSet_sets_every_pair_in_any_order (table 64) tt
              (<["a" := VInt 1]> {["b" := VInt 2]})
              [("a", VInt 1); ("b", VInt 2)]
              wf_table_64 two_pairs_listing)
    as (m' & Hrun & _ & Hst & Hany).
  exists m'. split; [exact Hrun|]. split.
  - apply Hany. rewrite <- two_pairs_listing. apply Permutation_swap.
  - split; [|split].
    + now rewrite Hst.
    + now rewrite Hst.
    + now rewrite Hst.
Defined.

Lemma Count_after_MSet_of_new_keys_witness :
  wf (table 64) /\
  exists m',
    MSet (map_to_list ({["a" := VInt 1]} : gmap string Value)) (table 64, tt) =
      (Done tt, (m', tt)) /\
    Count (m', tt) =
      (Done (Z.of_nat (total (table 64)) +
             Z.of_nat (size ({["a" := VInt 1]} : gmap string Value))), (m', tt)).
Proof.
  split; [exact wf_table_64|].
  assert (Hsum : Z.of_nat (total (table 64)) +
                 Z.of_nat (size ({["a" := VInt 1]} : gmap string Value)) < 2 ^ 63).
  { rewrite total_table, map_size_singleton. lia. }
  destruct (Count_after_MSet_of_new_keys (table 64) tt
              {["a" := VInt 1]} (map_to_list {["a" := VInt 1]})
              wf_table_64 (reflexivity _)
              (fun k _ => stored_table 64 k) Hsum)
    as (m' & Hrun & _ & Hcount).
  exists m'. split; [exact Hrun | exact Hcount].
Defined.

Lemma listing_order_is_a_listing (j : nat) (its : gmap string Value) :
  listing_order j its ≡ₚ map_to_list its.
Proof. reflexivity. Qed.

Lemma IterCb_visits_every_entry_once_witness :
  wf (table_with "a" (VInt 1)) /\
  exists visited,
    IterCb listing_order recorder (table_with "a" (VInt 1), []) =
      (Done tt, (table_with "a" (VInt 1), [] ++ visited)) /\
    length visited = total (table_with "a" (VInt 1)).
Proof.
  split; [apply wf_table_with|].
  destruct (IterCb_visits_every_entry_once listing_order
              (table_with "a" (VInt 1)) (wf_table_with "a" (VInt 1))
              listing_order_is_a_listing)
    as (visited & Hrun & _ & _ & Hlen & _).
  exists visited. split; [apply Hrun | exact Hlen].
Defined.

Lemma New_builds_an_empty_table_witness :
  0 < 64 <= max_slots /\
  (exists m,
      New 64 = Done m /\ wf m /\
      Get "a" (m, tt) = (Done (VNil, false), (m, tt)) /\
      Count (m, tt) = (Done 0, (m, tt))) /\
  max_slots < 2 ^ 62 /\
  New (2 ^ 62) = Panicked MakeSliceLen.
Proof.
  assert (Hs : 0 < 64 <= max_slots) by (unfold max_slots; lia).
  assert (Hbig : max_slots < 2 ^ 62) by (unfold max_slots; lia).
  split; [exact Hs|]. split.
  - destruct (proj1 (New_builds_an_empty_table 64) Hs)
      as (m & Hnew & Hwf & _ & _ & Hget & Hcount).
    exists m. split; [exact Hnew|]. split; [exact Hwf|].
    split; [apply Hget | apply Hcount].
  - split; [exact Hbig|].
    exact (proj2 (New_builds_an_empty_table (2 ^ 62)) Hbig).
Defined.

Lemma fnv32_of_concatenation_witness :
  "uqvmoj" <> "tsdqlp" /\
  Hasher.fnv32 "uqvmoj" = Hasher.fnv32 "tsdqlp" /\
  Hasher.fnv32 (String.append "uqvmoj" "-x") =
  Hasher.fnv32 (String.append "tsdqlp" "-x").
Proof.
  assert (Hcol : Hasher.fnv32 "uqvmoj" = Hasher.fnv32 "tsdqlp")
    by (vm_compute; reflexivity).
  split; [intros H; discriminate H|]. split; [exact Hcol|].
  exact (proj2 (fnv32_of_concatenation "tsdqlp" "-x") "uqvmoj" Hcol).
Defined.

Lemma UpdateCb_on_present_key_is_Upsert_witness :
  wf (table_with "k" (VInt 1)) /\
  stored (table_with "k" (VInt 1)) "k" = Some (VInt 1) /\
  snd (UpdateCb "k" (VInt 2) replaceCb (table_with "k" (VInt 1), tt)) =
  snd (Upsert "k" (VInt 2) replaceCb (table_with "k" (VInt 1), tt)).
Proof.
  split; [apply wf_table_with|]. split; [apply stored_table_with|].
  exact (proj1 (UpdateCb_on_present_key_is_Upsert
                  (table_with "k" (VInt 1)) tt "k" (VInt 2) replaceCb (VInt 1)
                  (wf_table_with "k" (VInt 1))
                  (stored_table_with "k" (VInt 1)))).
Defined.

Lemma IterCb_panicking_callback_keeps_read_lock_witness :
  wf (table_with "a" (VInt 1)) /\
  range_items failing
    (visit_order listing_order 0 (HashMap (table_with "a" (VInt 1))))
    (table_with "a" (VInt 1), tt) =
    (Panicked (Raised "boom"), (table_with "a" (VInt 1), tt)) /\
  exists m',
    IterCb listing_order failing (table_with "a" (VInt 1), tt) =
      (Panicked (Raised "boom"), (m', tt)) /\
    fst (Set_ "a" (VInt 2) (m', tt)) = Blocked /\
    Get "a" (m', tt) = (Done (VInt 1, true), (m', tt)).
Proof.
  assert (Hrun : range_items failing
                   (visit_order listing_order 0 (HashMap (table_with "a" (VInt 1))))
                   (table_with "a" (VInt 1), tt) =
                 (Panicked (Raised "boom"), (table_with "a" (VInt 1), tt)))
    by (vm_compute; reflexivity).
  split; [apply wf_table_with|]. split; [exact Hrun|].
  destruct (IterCb_panicking_callback_keeps_read_lock listing_order failing
              (table_with "a" (VInt 1)) tt tt (Raised "boom")
              (wf_table_with "a" (VInt 1)) Hrun)
    as (j & its & m' & Hsh & Hm' & Hiter & Hset & Hget).
  assert (Hc : IterCb listing_order failing (table_with "a" (VInt 1), tt) =
               (Panicked (Raised "boom"),
                (with_rlocked (table_with "a" (VInt 1))
                   (shard_index (table_with "a" (VInt 1)) "a")
                   {["a" := VInt 1]}, tt)))
    by (vm_compute; reflexivity).
  assert (Hj : shard_index (table_with "a" (VInt 1)) "a" = j).
  { destruct (decide (shard_index (table_with "a" (VInt 1)) "a" = j)) as [Hj|Hj];
      [exact Hj | exfalso].
    rewrite Hiter, Hm' in Hc.
    assert (Heq : HashMap (with_rlocked (table_with "a" (VInt 1)) j its) !! j =
                  HashMap (with_rlocked (table_with "a" (VInt 1))
                             (shard_index (table_with "a" (VInt 1)) "a")
                             {["a" := VInt 1]}) !! j) by congruence.
    unfold with_rlocked in Heq. cbn [HashMap] in Heq.
    rewrite list_lookup_insert_eq in Heq by (eapply lookup_lt_Some; exact Hsh).
    rewrite list_lookup_insert_ne in Heq by exact Hj.
    rewrite Hsh in Heq. unfold unlocked in Heq. congruence. }
  exists m'. split; [exact Hiter|]. split; [now apply Hset|].
  rewrite (Hget "a" tt Hj). now rewrite stored_table_with.
Defined.

(** * Slices that share backing arrays *)

Section SharedArrays.

Import Backed.

Context {E : Type}.
Implicit Types (m : Backed.ConcurrentHashMap) (mem : Memory) (e : E).
Implicit Types (k key : string) (i : nat).

(** ** The table part: every step stays within the frame *)

Lemma backed_frame_refl k m : Backed.frame k m m.
Proof. unfold Backed.frame. tauto. Qed.

Lemma backed_frame_trans k m1 m2 m3 :
  Backed.frame k m1 m2 -> Backed.frame k m2 m3 -> Backed.frame k m1 m3.
Proof.
  intros (Hs & Hl & Hn & He) (Hs' & Hl' & Hn' & He').
  split; [congruence|]. split; [congruence|]. split.
  - intros j. rewrite Hn'. apply Hn.
  - intros j k' Hk. rewrite He' by assumption. now apply He.
Qed.

Lemma backed_frame_assign k m i sh sh' :
  Backed.HashMap m !! i = Some (Some sh) ->
  (forall k', k' <> k -> Backed.items sh' !! k' = Backed.items sh !! k') ->
  Backed.frame k m
    {| Backed.Shards := Backed.Shards m;
       Backed.HashMap := <[i := Some sh']> (Backed.HashMap m) |}.
Proof.
  intros Hsh Hit. pose proof (lookup_lt_Some _ _ _ Hsh) as Hlt.
  unfold Backed.frame, Backed.entry, Backed.shard_items.
  cbn [Backed.Shards Backed.HashMap].
  split; [reflexivity|]. split; [apply length_insert|]. split.
  - intros j. destruct (decide (i = j)) as [<-|Hne].
    + rewrite list_lookup_insert_eq by assumption. rewrite Hsh.
      split; intros H; discriminate H.
    + now rewrite list_lookup_insert_ne.
  - intros j k' Hk. destruct (decide (i = j)) as [<-|Hne].
    + rewrite list_lookup_insert_eq by assumption. rewrite Hsh. now apply Hit.
    + now rewrite list_lookup_insert_ne.
Qed.

Lemma backed_within_bind {A B} k (c : Backed.M (E := E) A) (f : A -> Backed.M B) :
  Backed.within_frame k c -> (forall a, Backed.within_frame k (f a)) ->
  Backed.within_frame k (Backed.bind c f).
Proof.
  intros Hc Hf s. unfold Backed.bind. specialize (Hc s).
  destruct (c s) as [[a|p|] s']; cbn [fst snd] in *; try assumption.
  eapply backed_frame_trans; [exact Hc | apply Hf].
Qed.

(** A step that leaves the table as it is. *)
Lemma backed_within_same_table {A} k (c : Backed.M (E := E) A) :
  (forall s, fst (snd (c s)) = fst s) -> Backed.within_frame k c.
Proof. intros Hc s. rewrite Hc. apply backed_frame_refl. Qed.

Lemma backed_within_GetShard k key : Backed.within_frame (E := E) k (Backed.GetShard key).
Proof.
  apply backed_within_same_table. intros s. unfold Backed.GetShard. cbv zeta.
  destruct (_ =? _); [reflexivity|]. now destruct (_ <? _)%nat.
Qed.

Lemma backed_within_call k (cb : Backed.UpsertCb E) ok v value :
  Backed.within_frame k (Backed.call cb ok v value).
Proof.
  apply backed_within_same_table. intros s. unfold Backed.call.
  now destruct (cb ok v value (snd s)).
Qed.

Lemma backed_within_append_to growth k tmp value :
  Backed.within_frame (E := E) k (Backed.append_to growth tmp value).
Proof.
  apply backed_within_same_table. intros s. unfold Backed.append_to.
  now destruct (Backed.append growth tmp value (fst (snd s))).
Qed.

Lemma backed_within_update {A} k i (f : Backed.ConcurrentMapShared -> Backed.M (E := E) A) :
  (forall sh s,
      Backed.HashMap (fst s) !! i = Some (Some sh) ->
      Backed.frame k (fst s) (fst (snd (f sh s)))) ->
  Backed.within_frame k (Backed.bind (Backed.deref i) f).
Proof.
  intros Hf s. unfold Backed.bind, Backed.deref.
  destruct (Backed.HashMap (fst s) !! i) as [[sh|]|] eqn:Hsh; cbn [fst snd];
    try apply backed_frame_refl.
  now apply Hf.
Qed.

Lemma backed_within_Lock k i : Backed.within_frame (E := E) k (Backed.Lock i).
Proof.
  apply backed_within_update. intros sh s Hsh.
  destruct (_ || _); [apply backed_frame_refl|].
  now apply (backed_frame_assign k _ i sh).
Qed.

Lemma backed_within_Unlock k i : Backed.within_frame (E := E) k (Backed.Unlock i).
Proof.
  apply backed_within_update. intros sh s Hsh.
  destruct (writer _); [|apply backed_frame_refl].
  now apply (backed_frame_assign k _ i sh).
Qed.

Lemma backed_within_RLock k i : Backed.within_frame (E := E) k (Backed.RLock i).
Proof.
  apply backed_within_update. intros sh s Hsh.
  destruct (writer _); [apply backed_frame_refl|].
  now apply (backed_frame_assign k _ i sh).
Qed.

Lemma backed_within_RUnlock k i : Backed.within_frame (E := E) k (Backed.RUnlock i).
Proof.
  apply backed_within_update. intros sh s Hsh.
  destruct (readers _); [apply backed_frame_refl|].
  now apply (backed_frame_assign k _ i sh).
Qed.

Lemma backed_within_items_get k i key :
  Backed.within_frame (E := E) k (Backed.items_get i key).
Proof. apply backed_within_update. intros sh s Hsh. apply backed_frame_refl. Qed.

Lemma backed_within_items_set k i value :
  Backed.within_frame (E := E) k (Backed.items_set i k value).
Proof.
  apply backed_within_update. intros sh s Hsh.
  apply (backed_frame_assign k _ i sh); [assumption|].
  intros k' Hk. cbn [Backed.items]. now apply lookup_insert_ne.
Qed.

Lemma backed_within_items_delete k i :
  Backed.within_frame (E := E) k (Backed.items_delete i k).
Proof.
  apply backed_within_update. intros sh s Hsh.
  apply (backed_frame_assign k _ i sh); [assumption|].
  intros k' Hk. cbn [Backed.items]. now apply lookup_delete_ne.
Qed.

Lemma backed_within_ret {A} k (a : A) : Backed.within_frame (E := E) k (Backed.ret a).
Proof. intros s. apply backed_frame_refl. Qed.

Lemma backed_within_eval {A} k (o : Outcome A) :
  Backed.within_frame (E := E) k (Backed.eval o).
Proof. intros s. apply backed_frame_refl. Qed.

End SharedArrays.

Create HintDb backed_frame.

#[export] Hint Resolve backed_within_ret backed_within_eval backed_within_GetShard
  backed_within_call backed_within_append_to backed_within_Lock
  backed_within_Unlock backed_within_RLock backed_within_RUnlock
  backed_within_items_get backed_within_items_set backed_within_items_delete
  : backed_frame.

Ltac backed_framed :=
  repeat first
    [ apply backed_within_bind; [solve [auto with backed_frame] | intros ?]
    | solve [auto with backed_frame]
    | apply backed_within_bind; [| intros ?]
    | match goal with
      | |- Backed.within_frame _ (let '(_, _) := ?r in _) => destruct r
      | |- Backed.within_frame _ (if ?b then _ else _) => destruct b
      end ].

Lemma backed_perform_within_frame {E : Type} growth (c : Backed.Call E) :
  Backed.within_frame (Backed.call_key c) (Backed.perform growth c).
Proof.
  destruct c; cbn [Backed.call_key Backed.perform];
    unfold Backed.Set_, Backed.Get, Backed.Has, Backed.Remove, Backed.Pop,
      Backed.SetIfAbsent, Backed.SetIfPresent, Backed.AddIfPresent,
      Backed.Upsert, Backed.Update, Backed.UpdateCb; backed_framed.
Qed.

(** ** The memory part *)

Section SharedArraysMemory.

Import Backed.

Context {E : Type}.
Implicit Types (m : Backed.ConcurrentHashMap) (mem : Memory) (e : E).
Implicit Types (k key : string) (i : nat).

Lemma backed_calm_bind {A B} (c : Backed.M (E := E) A) (f : A -> Backed.M B) :
  Backed.calm c -> (forall a, Backed.calm (f a)) -> Backed.calm (Backed.bind c f).
Proof.
  intros Hc Hf s. unfold Backed.bind. specialize (Hc s).
  destruct (c s) as [[a|p|] s']; cbn [fst snd] in *; try assumption.
  now rewrite Hf.
Qed.

(** A step that leaves memory and callback state as they are. *)
Lemma backed_calm_same {A} (c : Backed.M (E := E) A) :
  (forall s, snd (snd (c s)) = snd s) -> Backed.calm c.
Proof. intros Hc s. now rewrite Hc. Qed.

Lemma backed_calm_ret {A} (a : A) : Backed.calm (E := E) (Backed.ret a).
Proof. now apply backed_calm_same. Qed.

Lemma backed_calm_eval {A} (o : Outcome A) : Backed.calm (E := E) (Backed.eval o).
Proof. now apply backed_calm_same. Qed.

Lemma backed_calm_panic {A} p : Backed.calm (E := E) (A := A) (Backed.panic p).
Proof. now apply backed_calm_same. Qed.

Lemma backed_calm_block {A} : Backed.calm (E := E) (A := A) Backed.block.
Proof. now apply backed_calm_same. Qed.

Lemma backed_calm_GetShard key : Backed.calm (E := E) (Backed.GetShard key).
Proof.
  apply backed_calm_same. intros s. unfold Backed.GetShard. cbv zeta.
  destruct (_ =? _); [reflexivity|]. now destruct (_ <? _)%nat.
Qed.

Lemma backed_calm_deref i : Backed.calm (E := E) (Backed.deref i).
Proof.
  apply backed_calm_same. intros s. unfold Backed.deref.
  now destruct (Backed.HashMap (fst s) !! i) as [[sh|]|].
Qed.

Lemma backed_calm_assign i sh : Backed.calm (E := E) (Backed.assign i sh).
Proof. now apply backed_calm_same. Qed.

Lemma backed_calm_call (cb : Backed.UpsertCb E) ok v value :
  Backed.keeps_memory cb -> Backed.calm (Backed.call cb ok v value).
Proof.
  intros Hcb s. unfold Backed.call. specialize (Hcb ok v value (snd s)).
  now destruct (cb ok v value (snd s)).
Qed.

End SharedArraysMemory.

Create HintDb backed_calm.

#[export] Hint Resolve backed_calm_ret backed_calm_eval backed_calm_panic
  backed_calm_block backed_calm_GetShard backed_calm_deref backed_calm_assign
  backed_calm_call : backed_calm.

Ltac backed_calmed :=
  repeat first
    [ solve [auto with backed_calm]
    | apply backed_calm_bind; [| intros ?]
    | match goal with
      | |- Backed.calm (let '(_, _) := ?r in _) => destruct r
      | |- Backed.calm (if ?b then _ else _) => destruct b
      | |- Backed.calm (match ?n with O => _ | S _ => _ end) => destruct n
      end ].

Lemma backed_perform_calm {E : Type} growth (c : Backed.Call E) :
  (Backed.leaves_memory c = true \/
   exists cb, Backed.callback c = Some cb /\ Backed.keeps_memory cb) ->
  Backed.calm (Backed.perform growth c).
Proof.
  intros Hc.
  destruct c; cbn [Backed.perform];
    destruct Hc as [Hc | (cb' & Hc & Hcb)]; try discriminate Hc;
    try (injection Hc as <-);
    unfold Backed.Set_, Backed.Get, Backed.Has, Backed.Remove, Backed.Pop,
      Backed.SetIfAbsent, Backed.SetIfPresent, Backed.Upsert, Backed.Update,
      Backed.UpdateCb, Backed.Lock, Backed.Unlock, Backed.RLock, Backed.RUnlock,
      Backed.items_get, Backed.items_set, Backed.items_delete;
    backed_calmed.
Qed.

(** ** Running [Set] and [AddIfPresent] on a well-formed table *)

Lemma backed_cell_append growth (tmp : Backed.Slice) (value : Backed.Val)
    (mem : gmap nat (list Backed.Val)) (a i : nat) :
  is_Some (mem !! a) ->
  (if (Backed.len tmp <? Backed.cap tmp)%nat
   then Some (Backed.base tmp, (Backed.off tmp + Backed.len tmp)%nat)
   else None) <> Some (a, i) ->
  Backed.cell (snd (Backed.append growth tmp value mem)) a i = Backed.cell mem a i.
Proof.
  intros [cells Ha] Hne. unfold Backed.append, Backed.cell.
  destruct (Backed.len tmp <? Backed.cap tmp)%nat; cbn [snd].
  - destruct (decide (Backed.base tmp = a)) as [Hb|Hb].
    + subst a. rewrite lookup_alter_eq, Ha. cbn.
      apply list_lookup_insert_ne. intros Hi. apply Hne. now rewrite Hi.
    + now rewrite lookup_alter_ne.
  - rewrite lookup_insert_ne; [reflexivity|].
    intros Hf. pose proof (is_fresh (dom mem)) as Hfresh. rewrite Hf in Hfresh.
    apply Hfresh, elem_of_dom. eauto.
Qed.

Lemma backed_elements_lookup (mem : gmap nat (list Backed.Val)) (s : Backed.Slice) (i : nat) :
  Backed.elements mem s !! i =
  if decide (i < Backed.len s)%nat
  then Backed.cell mem (Backed.base s) (Backed.off s + i)
  else None.
Proof.
  unfold Backed.elements, Backed.cell.
  destruct (mem !! Backed.base s) as [cells|].
  - destruct (decide (i < Backed.len s)%nat) as [Hlt|Hge].
    + rewrite lookup_take_lt by assumption. apply lookup_drop.
    + apply lookup_take_ge. lia.
  - now destruct (decide _).
Qed.

Lemma backed_elements_ext (mem mem' : gmap nat (list Backed.Val)) (s : Backed.Slice) :
  (forall i, (i < Backed.len s)%nat ->
     Backed.cell mem' (Backed.base s) (Backed.off s + i) =
     Backed.cell mem (Backed.base s) (Backed.off s + i)) ->
  Backed.elements mem' s = Backed.elements mem s.
Proof.
  intros Hc. apply list_eq. intros i. rewrite !backed_elements_lookup.
  destruct (decide _); [now apply Hc | reflexivity].
Qed.

Section SharedArraysRuns.

Import Backed.

Context {E : Type}.
Implicit Types (m : Backed.ConcurrentHashMap) (me : Memory * E).
Implicit Types (key : string) (i : nat) (its : gmap string Val).

Lemma backed_shard_index_lt m key :
  Backed.wf m -> (Backed.shard_index m key < length (Backed.HashMap m))%nat.
Proof.
  intros (Hs & Hlen & _). unfold Backed.shard_index.
  pose proof (fnv32_range key) as Hh.
  rewrite (to_uint_small (Hasher.fnv32 key)) by lia.
  rewrite (to_uint_small (Backed.Shards m)) by lia.
  pose proof (Z.mod_pos_bound (Hasher.fnv32 key) (Backed.Shards m)) as Hb.
  lia.
Qed.

Lemma backed_located m key :
  Backed.wf m ->
  Backed.HashMap m !! Backed.shard_index m key =
  Some (Some {| Backed.items := Backed.shard_items m (Backed.shard_index m key);
                Backed.mu := unlocked |}).
Proof.
  intros Hwf. pose proof (backed_shard_index_lt m key Hwf) as Hlt.
  destruct Hwf as (_ & _ & Hall). destruct (Hall _ Hlt) as ([its l] & Hsh & Hmu).
  cbn [Backed.mu] in Hmu. subst l.
  unfold Backed.shard_items. now rewrite Hsh.
Qed.

Lemma backed_GetShard_run m me key :
  Backed.wf m ->
  Backed.GetShard key (m, me) = (Done (Backed.shard_index m key), (m, me)).
Proof.
  intros Hwf. pose proof (backed_shard_index_lt m key Hwf) as Hlt.
  destruct Hwf as (Hs & _ & _).
  unfold Backed.GetShard. cbv zeta. cbn [fst].
  rewrite to_uint_small by lia.
  destruct (Backed.Shards m =? 0) eqn:H0; [apply Z.eqb_eq in H0; lia|].
  now apply Nat.ltb_lt in Hlt as ->.
Qed.

Lemma backed_Lock_run m me i its :
  Backed.HashMap m !! i = Some (Some {| Backed.items := its; Backed.mu := unlocked |}) ->
  Backed.Lock i (m, me) = (Done tt, (Backed.with_shard m i its Backed.locked, me)).
Proof.
  intros Hsh. unfold Backed.Lock, Backed.bind, Backed.deref. cbn [fst].
  now rewrite Hsh.
Qed.

Lemma backed_deref_locked m me i its :
  (i < length (Backed.HashMap m))%nat ->
  Backed.deref i (Backed.with_shard m i its Backed.locked, me) =
  (Done {| Backed.items := its; Backed.mu := Backed.locked |},
   (Backed.with_shard m i its Backed.locked, me)).
Proof.
  intros Hlt. unfold Backed.deref, Backed.with_shard. cbn [fst Backed.HashMap].
  now rewrite list_lookup_insert_eq.
Qed.

Lemma backed_items_get_locked m me i its key :
  (i < length (Backed.HashMap m))%nat ->
  Backed.items_get i key (Backed.with_shard m i its Backed.locked, me) =
  (Done (match its !! key with Some v => (v, true) | None => (NilV, false) end),
   (Backed.with_shard m i its Backed.locked, me)).
Proof.
  intros Hlt. unfold Backed.items_get, Backed.bind.
  now rewrite backed_deref_locked.
Qed.

Lemma backed_items_set_locked m me i its key value :
  (i < length (Backed.HashMap m))%nat ->
  Backed.items_set i key value (Backed.with_shard m i its Backed.locked, me) =
  (Done tt, (Backed.with_shard m i (<[key := value]> its) Backed.locked, me)).
Proof.
  intros Hlt. unfold Backed.items_set, Backed.bind.
  rewrite backed_deref_locked by assumption.
  unfold Backed.assign, Backed.with_shard. cbn.
  now rewrite list_insert_insert_eq.
Qed.

Lemma backed_Unlock_locked m me i its :
  (i < length (Backed.HashMap m))%nat ->
  Backed.Unlock i (Backed.with_shard m i its Backed.locked, me) =
  (Done tt, (Backed.with_shard m i its unlocked, me)).
Proof.
  intros Hlt. unfold Backed.Unlock, Backed.bind.
  rewrite backed_deref_locked by assumption.
  unfold Backed.assign, Backed.with_shard. cbn.
  now rewrite list_insert_insert_eq.
Qed.

Lemma backed_wf_with_shard m i its :
  Backed.wf m -> (i < length (Backed.HashMap m))%nat ->
  Backed.wf (Backed.with_shard m i its unlocked).
Proof.
  intros (Hs & Hlen & Hall) Hlt. unfold Backed.wf, Backed.with_shard.
  cbn [Backed.Shards Backed.HashMap]. rewrite length_insert.
  split; [lia|]. split; [lia|].
  intros j Hj. destruct (decide (i = j)) as [->|Hne].
  - rewrite list_lookup_insert_eq by assumption. eauto.
  - rewrite list_lookup_insert_ne by assumption. auto.
Qed.

Lemma backed_wf_table (shards : Z) :
  0 < shards < 2 ^ 63 -> Backed.wf (Backed.table shards).
Proof.
  intros Hs. unfold Backed.wf, Backed.table.
  cbn [Backed.Shards Backed.HashMap]. rewrite length_replicate.
  split; [lia|]. split; [lia|].
  intros j Hj. eexists. split; [now apply lookup_replicate_2 | reflexivity].
Qed.

Lemma backed_Set_run m me key (value : Val) :
  Backed.wf m ->
  Backed.Set_ key value (m, me) =
  (Done tt,
   (Backed.with_shard m (Backed.shard_index m key)
      (<[key := value]> (Backed.shard_items m (Backed.shard_index m key)))
      unlocked, me)).
Proof.
  intros Hwf. pose proof (backed_shard_index_lt m key Hwf) as Hlt.
  unfold Backed.Set_, Backed.bind. rewrite backed_GetShard_run by assumption.
  rewrite (backed_Lock_run _ _ _ _ (backed_located m key Hwf)).
  rewrite backed_items_set_locked by assumption.
  now rewrite backed_Unlock_locked.
Qed.

Lemma backed_AddIfPresent_run growth m (mem : Memory) (e : E) key (value : Val) :
  Backed.wf m ->
  Backed.AddIfPresent growth key value (m, (mem, e)) =
  let i := Backed.shard_index m key in
  let its := Backed.shard_items m i in
  match Backed.stored m key with
  | None =>
      (Done false, (Backed.with_shard m i (<[key := value]> its) unlocked, (mem, e)))
  | Some val =>
      match Backed.assert_ifaces val with
      | Done tmp =>
          (Done true,
           (Backed.with_shard m i
              (<[key := IfacesV (fst (Backed.append growth tmp value mem))]> its)
              unlocked,
            (snd (Backed.append growth tmp value mem), e)))
      | Panicked p => (Panicked p, (Backed.with_shard m i its Backed.locked, (mem, e)))
      | Blocked => (Blocked, (Backed.with_shard m i its Backed.locked, (mem, e)))
      end
  end.
Proof.
  intros Hwf. pose proof (backed_shard_index_lt m key Hwf) as Hlt. cbv zeta.
  unfold Backed.AddIfPresent, Backed.bind, Backed.stored, Backed.entry.
  rewrite backed_GetShard_run by assumption.
  rewrite (backed_Lock_run _ _ _ _ (backed_located m key Hwf)).
  rewrite backed_items_get_locked by assumption.
  destruct (Backed.shard_items m (Backed.shard_index m key) !! key) as [val|].
  - unfold Backed.eval.
    destruct (Backed.assert_ifaces val) as [tmp|p|]; try reflexivity.
    unfold Backed.append_to. cbn [fst snd].
    destruct (Backed.append growth tmp value mem) as [tmp' mem'].
    rewrite backed_items_set_locked by assumption.
    now rewrite backed_Unlock_locked.
  - rewrite backed_items_set_locked by assumption.
    now rewrite backed_Unlock_locked.
Qed.

End SharedArraysRuns.

(** ** The frame of a single-key operation *)

Lemma backed_wf_after_Set {E : Type} m (me : gmap nat (list Backed.Val) * E)
    key (value : Backed.Val) :
  Backed.wf m -> Backed.wf (fst (snd (Backed.Set_ key value (m, me)))).
Proof.
  intros Hwf. rewrite backed_Set_run by assumption. cbn [fst snd].
  apply backed_wf_with_shard; [assumption | now apply backed_shard_index_lt].
Qed.

Lemma backed_AddIfPresent_cells {E : Type} growth m
    (mem : gmap nat (list Backed.Val)) (e : E) key (value : Backed.Val) (a i : nat) :
  Backed.wf m ->
  is_Some (mem !! a) ->
  Backed.written_cell m key <> Some (a, i) ->
  Backed.cell
    (fst (snd (snd (Backed.AddIfPresent growth key value (m, (mem, e)))))) a i =
  Backed.cell mem a i.
Proof.
  intros Hwf Ha Hne. rewrite backed_AddIfPresent_run by assumption. cbv zeta.
  unfold Backed.written_cell in Hne.
  destruct (Backed.stored m key) as [val|]; [|reflexivity].
  destruct val; cbn [Backed.assert_ifaces fst snd]; try reflexivity.
  now apply backed_cell_append.
Qed.

Lemma backed_read_ext m m' (mem mem' : gmap nat (list Backed.Val)) k :
  Backed.stored m' k = Backed.stored m k ->
  (forall s, Backed.stored m k = Some (Backed.IfacesV s) ->
             Backed.elements mem' s = Backed.elements mem s) ->
  Backed.read m' mem' k = Backed.read m mem k.
Proof.
  intros Hst Hel. unfold Backed.read. rewrite Hst.
  destruct (Backed.stored m k) as [[| | | | | |s]|]; try reflexivity.
  now rewrite Hel.
Qed.

(** C10, amended: whatever single-key operation runs on key [call_key c]
    and however it ends, every other key [k'] keeps its presence and the
    value stored for it (for a slice: the same array, offset, length
    and capacity), in every slot and in the shard it is routed to; the
    shard count, the number of slots and the nil slots stay the same.
    The elements read through a slice stored under [k'] stay the same
    too, with two exceptions the table does not guard against:
    [AddIfPresent] appending in place into a backing array that the
    slice under [k'] covers at the written cell, and a callback that
    writes to memory.  [AddIfPresent] writes at most one cell of the
    arrays that exist: the first spare cell of the slice stored under
    its key. *)
Theorem single_key_operations_frame_with_shared_arrays {E : Type}
    (growth : nat -> nat) (c : Backed.Call E) (m : Backed.ConcurrentHashMap)
    (mem : gmap nat (list Backed.Val)) (e : E) (k' : string) :
  k' <> Backed.call_key c ->
  let s' := snd (Backed.perform growth c (m, (mem, e))) in
  let m' := fst s' in
  let mem' := fst (snd s') in
  Backed.Shards m' = Backed.Shards m /\
  length (Backed.HashMap m') = length (Backed.HashMap m) /\
  (forall j, Backed.HashMap m' !! j = Some None <-> Backed.HashMap m !! j = Some None) /\
  (forall j, Backed.entry m' j k' = Backed.entry m j k') /\
  Backed.stored m' k' = Backed.stored m k' /\
  (Backed.leaves_memory c = true ->
   mem' = mem /\ Backed.read m' mem' k' = Backed.read m mem k') /\
  (forall cb, Backed.callback c = Some cb -> Backed.keeps_memory cb ->
   mem' = mem /\ Backed.read m' mem' k' = Backed.read m mem k') /\
  (forall key value, c = Backed.CAddIfPresent key value -> Backed.wf m ->
   (forall a i, is_Some (mem !! a) -> Backed.written_cell m key <> Some (a, i) ->
                Backed.cell mem' a i = Backed.cell mem a i) /\
   (match Backed.stored m k' with
    | Some (Backed.IfacesV s) =>
        is_Some (mem !! Backed.base s) /\
        forall i, (i < Backed.len s)%nat ->
                  Backed.written_cell m key <>
                  Some (Backed.base s, (Backed.off s + i)%nat)
    | _ => True
    end ->
    Backed.read m' mem' k' = Backed.read m mem k')).
Proof.
  intros Hk s' m' mem'.
  destruct (backed_perform_within_frame growth c (m, (mem, e))) as (Hs & Hl & Hn & He).
  cbn [fst] in Hs, Hl, Hn, He. fold s' in Hs, Hl, Hn, He. fold m' in Hs, Hl, Hn, He.
  assert (Hst : Backed.stored m' k' = Backed.stored m k').
  { unfold Backed.stored.
    replace (Backed.shard_index m' k') with (Backed.shard_index m k')
      by (unfold Backed.shard_index; now rewrite Hs).
    now apply He. }
  split; [exact Hs|]. split; [exact Hl|]. split; [exact Hn|].
  split; [intros j; now apply He|]. split; [exact Hst|].
  split; [|split].
  - intros Hc.
    assert (Hmem : mem' = mem)
      by (apply (backed_perform_calm growth c (or_introl Hc) (m, (mem, e)))).
    split; [exact Hmem|]. rewrite Hmem. now apply backed_read_ext.
  - intros cb Hc Hcb.
    assert (Hmem : mem' = mem).
    { apply (backed_perform_calm growth c
               (or_intror (ex_intro _ cb (conj Hc Hcb))) (m, (mem, e))). }
    split; [exact Hmem|]. rewrite Hmem. now apply backed_read_ext.
  - intros key value Hc Hwf.
    assert (Hcells : forall a i, is_Some (mem !! a) ->
                Backed.written_cell m key <> Some (a, i) ->
                Backed.cell mem' a i = Backed.cell mem a i).
    { intros a i Ha Hne. unfold mem', s'. rewrite Hc. cbn [Backed.perform].
      unfold Backed.bind.
      pose proof (backed_AddIfPresent_cells growth m mem e key value a i Hwf Ha Hne)
        as Hcell.
      destruct (Backed.AddIfPresent growth key value (m, (mem, e)))
        as [[b|p|] s1]; exact Hcell. }
    split; [exact Hcells|].
    intros Hcond. apply backed_read_ext; [exact Hst|].
    intros s Hs'. rewrite Hs' in Hcond. destruct Hcond as [Hbase Hfar].
    apply backed_elements_ext. intros i Hi. now apply Hcells, Hfar.
Qed.

(** C10, as stated, fails: the slices under "k" and "j" are cut from
    one array, [arr] and [arr[:1]]; [AddIfPresent("j", 3)] appends in
    place, and what is read under "k" changes from [1 2] to [1 3]. *)
Lemma AddIfPresent_writes_through_a_shared_array :
  "k" <> "j" /\
  Backed.read (fst Backed.shared_example) (fst (snd Backed.shared_example)) "k" =
    Some (Backed.IfacesV Backed.arr, [Backed.IntV 1; Backed.IntV 2]) /\
  fst (Backed.AddIfPresent Backed.doubling "j" (Backed.IntV 3) Backed.shared_example) =
    Done true /\
  Backed.read
    (fst (snd (Backed.AddIfPresent Backed.doubling "j" (Backed.IntV 3)
                 Backed.shared_example)))
    (fst (snd (snd (Backed.AddIfPresent Backed.doubling "j" (Backed.IntV 3)
                      Backed.shared_example))))
    "k" =
    Some (Backed.IfacesV Backed.arr, [Backed.IntV 1; Backed.IntV 3]) /\
  fst (Backed.Get "k"
         (snd (Backed.AddIfPresent Backed.doubling "j" (Backed.IntV 3)
                 Backed.shared_example))) =
    Done (Backed.IfacesV Backed.arr, true).
Proof.
  split; [intros H; discriminate H|].
  repeat split; vm_compute; reflexivity.
Qed.

Lemma single_key_operations_frame_with_shared_arrays_witness :
  "k" <> "j" /\
  Backed.wf (fst Backed.separate_example) /\
  Backed.read
    (fst (snd (Backed.perform Backed.doubling
                 (Backed.CAddIfPresent "j" (Backed.IntV 3))
                 Backed.separate_example)))
    (fst (snd (snd (Backed.perform Backed.doubling
                      (Backed.CAddIfPresent "j" (Backed.IntV 3))
                      Backed.separate_example))))
    "k" =
  Some (Backed.IfacesV Backed.other, [Backed.IntV 7]) /\
  Backed.read
    (fst (snd (Backed.perform Backed.doubling (Backed.CRemove "j")
                 Backed.shared_example)))
    (fst (snd (snd (Backed.perform Backed.doubling (Backed.CRemove "j")
                      Backed.shared_example))))
    "k" =
  Some (Backed.IfacesV Backed.arr, [Backed.IntV 1; Backed.IntV 2]).
Proof.
  assert (Hne : "k" <> Backed.call_key (E := unit)
                         (Backed.CAddIfPresent "j" (Backed.IntV 3)))
    by (intros H; discriminate H).
  assert (Hne' : "k" <> Backed.call_key (E := unit) (Backed.CRemove "j"))
    by (intros H; discriminate H).
  assert (Hwf : Backed.wf (fst Backed.separate_example)).
  { unfold Backed.separate_example.
    destruct (Backed.Set_ "k" (Backed.IfacesV Backed.other)
                (Backed.table 64, (Backed.two_arrays, tt))) as [o [m1 me1]] eqn:H1.
    assert (Hwf1 : Backed.wf m1).
    { pose proof (backed_wf_after_Set (Backed.table 64) (Backed.two_arrays, tt)
                    "k" (Backed.IfacesV Backed.other)
                    (backed_wf_table 64 ltac:(lia))) as Hw.
      now rewrite H1 in Hw. }
    cbn [snd]. now apply backed_wf_after_Set. }
  split; [exact Hne|]. split; [exact Hwf|]. split; cycle 1.
  { pose proof (single_key_operations_frame_with_shared_arrays
                  Backed.doubling (Backed.CRemove "j")
                  (fst Backed.shared_example) (fst (snd Backed.shared_example))
                  (snd (snd Backed.shared_example)) "k" Hne') as H.
    cbv zeta in H. destruct H as (_ & _ & _ & _ & _ & H & _).
    destruct (H eq_refl) as [_ Hread].
    replace (fst Backed.shared_example,
             (fst (snd Backed.shared_example), snd (snd Backed.shared_example)))
      with Backed.shared_example in Hread
      by (now destruct Backed.shared_example as [? [? ?]]).
    rewrite Hread. vm_compute. reflexivity. }
  pose proof (single_key_operations_frame_with_shared_arrays
                Backed.doubling (Backed.CAddIfPresent "j" (Backed.IntV 3))
                (fst Backed.separate_example) (fst (snd Backed.separate_example))
                (snd (snd Backed.separate_example)) "k" Hne) as H.
  cbv zeta in H. destruct H as (_ & _ & _ & _ & _ & _ & _ & H).
  destruct (H "j" (Backed.IntV 3) eq_refl Hwf) as [_ Hread].
  assert (Hst : Backed.stored (fst Backed.separate_example) "k" =
                Some (Backed.IfacesV Backed.other)) by (vm_compute; reflexivity).
  assert (Hw : Backed.written_cell (fst Backed.separate_example) "j" =
               Some (0%nat, 1%nat)) by (vm_compute; reflexivity).
  rewrite Hst, Hw in Hread.
  replace (fst Backed.separate_example,
           (fst (snd Backed.separate_example), snd (snd Backed.separate_example)))
    with Backed.separate_example in Hread
    by (now destruct Backed.separate_example as [? [? ?]]).
  rewrite Hread.
  - vm_compute. reflexivity.
  - split; [vm_compute; eauto|]. intros i Hi H0. discriminate H0.
Defined.
